(** * Deterministic in-order traversal of a Stack (pkg/compiler/core/visitor.go)
      and the cloud architecture tables (pkg/compiler/clouds/clouds.go).

    The Go code is embedded shallowly:
    - a Go [map[string]T] is a [gmap string T]; the index expression [m[k]] on a
      missing key yields the zero value of [T], written [m !!! k] with the
      [Inhabited] instance of [T] standing for that zero value;
    - a pointer argument [*T] that a method may write through is a value of [T]
      that goes in and comes out.  An observer works on the record through the
      pointer during the call and does not keep the pointer (or a map found
      behind it) for later calls;
    - what an observer keeps between calls (its own fields, the sink it reports
      to) is a value of an arbitrary type [World] threaded through every call,
      shared by the pre and the post observer;
    - the order in which [range] enumerates a map is unspecified in Go, so it is
      a parameter ([MapOrder]) of every traversal function;
    - every call into an observer and every store into a map leaves an [Event]
      in the list a traversal returns, so that statements about the order of
      calls and stores are statements about that list.  Observers do not see
      the list. *)

From stdpp Require Import gmap strings list sorting fin_maps.

(* ===================================================================== *)
(** * pkg/compiler/clouds/clouds.go *)
(* ===================================================================== *)

Module clouds.

(** [type Arch int] with the constants numbered by [iota]. *)
Definition Arch : Type := Z.

Definition NoArch : Arch := 0%Z.
Definition AWSArch : Arch := 1%Z.
Definition GCPArch : Arch := 2%Z.
Definition AzureArch : Arch := 3%Z.
Definition VMWareArch : Arch := 4%Z.

Definition noArch : string := "".
Definition awsArch : string := "aws".
Definition gcpArch : string := "gcp".
Definition azureArch : string := "azure".
Definition vmwareArch : string := "vmware".

(** [ArchMap] maps human-friendly names to the Archs for those names. *)
Definition ArchMap : gmap string Z :=
  list_to_map
    [ (noArch, NoArch); (awsArch, AWSArch); (gcpArch, GCPArch);
      (azureArch, AzureArch); (vmwareArch, VMWareArch) ].

(** [ArchNames] maps Archs to human-friendly names. *)
Definition ArchNames : gmap Z string :=
  list_to_map
    [ (NoArch, noArch); (AWSArch, awsArch); (GCPArch, gcpArch);
      (AzureArch, azureArch); (VMWareArch, vmwareArch) ].

(** The Go index expressions [ArchMap[n]] and [ArchNames[a]]: a missing key
    gives the zero value of the element type ([0] and the empty string). *)
Definition ArchMap_index (n : string) : Arch := default 0%Z (ArchMap !! n).
Definition ArchNames_index (a : Arch) : string := default "" (ArchNames !! a).

Definition archs : list Arch := [NoArch; AWSArch; GCPArch; AzureArch; VMWareArch].
Definition names : list string := [noArch; awsArch; gcpArch; azureArch; vmwareArch].

End clouds.

(* ===================================================================== *)
(** * pkg/compiler/core/visitor.go *)
(* ===================================================================== *)

(** [sort.Strings] of the Go standard library: sorts a slice of strings in
    increasing order, strings being compared byte by byte ([String.le] is the
    lexicographic order on the character codes, a proper prefix coming
    first). *)
Definition sort_Strings (l : list string) : list string := merge_sort String.le l.

(** ** What a traversal leaves behind *)

Inductive Hook := Pre | Post.

(** Which method of the [Visitor] interface, with the key it is called for. *)
Inductive Call :=
| CallMetadata (kind : string)
| CallStack
| CallParameter (name : string)
| CallDependency (name : string)
| CallServices
| CallService (name : string) (public : bool)
| CallTarget (name : string).

Inductive Event :=
| Invoke (h : Hook) (c : Call)   (* [v.pre.M(...)] or [v.post.M(...)] ran *)
| WriteBack (c : Call).          (* the store [m[name] = x] after the visit [c] *)

Global Instance Hook_eq_dec : EqDecision Hook.
Proof. solve_decision. Defined.
Global Instance Call_eq_dec : EqDecision Call.
Proof. solve_decision. Defined.
Global Instance Event_eq_dec : EqDecision Event.
Proof. solve_decision. Defined.

(** The order in which [for k := range m] enumerates the keys of [m]: some
    enumeration of exactly the keys of the map, each once.  (Go may enumerate
    one map differently each time; every loop below sorts what it collected,
    and [sort_rangeKeys] shows that the sorted list no longer depends on the
    enumeration.) *)
Record MapOrder := {
  rangeKeys : ∀ V : Type, gmap string V → list string;
  rangeKeys_perm : ∀ (V : Type) (m : gmap string V), rangeKeys V m ≡ₚ elements (dom m)
}.
Global Arguments rangeKeys _ {_} _.

(** Two enumerations to run the definitions on. *)
Definition forwardOrder : MapOrder :=
  {| rangeKeys := λ V m, elements (dom m);
     rangeKeys_perm := λ V m, reflexivity _ |}.

Definition backwardOrder : MapOrder :=
  {| rangeKeys := λ V m, reverse (elements (dom m));
     rangeKeys_perm := λ V m, reverse_Permutation _ |}.

(** ** The monad of the traversal: observer state in, events out *)

Section monad.
Context {World : Type}.

Record Outcome (A : Type) := {
  value : A;
  world : World;
  events : list Event
}.
Global Arguments value {_} _.
Global Arguments world {_} _.
Global Arguments events {_} _.

Definition M (A : Type) : Type := World → Outcome A.

Definition ret {A} (a : A) : M A :=
  λ w, {| value := a; world := w; events := [] |}.

Definition bind {A B} (c : M A) (k : A → M B) : M B :=
  λ w, let r := c w in
       let r' := k (value r) (world r) in
       {| value := value r'; world := world r'; events := events r ++ events r' |}.

Definition emit (e : Event) : M unit :=
  λ w, {| value := tt; world := w; events := [e] |}.
End monad.
Global Arguments Outcome : clear implicits.
Global Arguments M : clear implicits.

Notation "'let*' x ':=' c 'in' k" := (bind c (λ x, k))
  (at level 10, x name, c at level 100, k at level 200, only parsing).
Notation "'run' c 'then' k" := (bind c (λ _, k))
  (at level 10, c at level 100, k at level 200, only parsing).

Module core.
Section visitor.

(** The packages [ast] and [diag] are imported by visitor.go; their types
    are parameters here.  Of [Metadata], [Stack] and [Services] the code uses
    the fields below; whatever else they hold is [MetadataRest], [StackRest]
    and [ServicesRest]. *)
Context {Document Sink World : Type}.
Context {Target Param Dependency Service : Type}.
(* [Param] is [ast.Parameter]. *)
Context {MetadataRest StackRest ServicesRest : Type}.
Context `{!Inhabited Target, !Inhabited Param,
          !Inhabited Dependency, !Inhabited Service}.

Record Metadata := {
  Targets : gmap string Target;
  metadataRest : MetadataRest
}.

Record Services := {
  Public : gmap string Service;
  Private : gmap string Service;
  servicesRest : ServicesRest
}.

Record Stack := {
  StackMetadata : Metadata;
  Parameters : gmap string Param;
  Dependencies : gmap string Dependency;
  StackServices : Services;
  stackRest : StackRest
}.

(** [type Visitor interface].  A method that receives [*T] returns the [T] it
    leaves behind, next to the observer's own state.  [Diag] is [None] for a
    nil sink. *)
Record Visitor := {
  Diag : option Sink;
  VisitMetadata : Document → string → Metadata → World → Metadata * World;
  VisitStack : Document → Stack → World → Stack * World;
  VisitParameter : Document → string → Param → World → Param * World;
  VisitDependency : Document → string → Dependency → World → Dependency * World;
  VisitServices : Document → Services → World → Services * World;
  VisitService : Document → string → bool → Service → World → Service * World;
  VisitTarget : Document → string → Target → World → Target * World
}.

(** [type inOrderVisitor struct { pre Visitor; post Visitor }]; [None] is nil. *)
Record inOrderVisitor := {
  pre : option Visitor;
  post : option Visitor
}.

Definition NewInOrderVisitor (pre post : option Visitor) : inOrderVisitor :=
  {| pre := pre; post := post |}.

(** [if o != nil { o.method(..., &r) }] *)
Definition ifPresent {R} (h : Hook) (o : option Visitor) (c : Call)
    (method : Visitor → R → World → R * World) (r : R) : M World R :=
  match o with
  | Some obs =>
      λ w, {| value := (method obs r w).1;
              world := (method obs r w).2;
              events := [Invoke h c] |}
  | None => ret r
  end.

(** [for _, name := range names { x := m[name]; visit(name, &x); m[name] = x }] *)
Fixpoint forEachName {V} `{!Inhabited V} (c : string → Call)
    (visit : string → V → M World V) (names : list string) (m : gmap string V)
    : M World (gmap string V) :=
  match names with
  | [] => ret m
  | name :: names =>
      let* x := visit name (m !!! name) in
      run emit (WriteBack (c name)) then
      forEachName c visit names (<[name := x]> m)
  end.

Section methods.
Variable ord : MapOrder.
Variable v : inOrderVisitor.

(** [func (v *inOrderVisitor) Diag() diag.Sink] *)
Definition inOrderVisitor_Diag : option Sink :=
  match pre v with
  | Some p => Diag p
  | None =>
      match post v with
      | Some q => Diag q
      | None => None
      end
  end.

(** [if v.pre != nil { v.pre.VisitParameter(doc, name, param) }
     if v.post != nil { v.post.VisitParameter(doc, name, param) }]
    and the same for a Dependency, a Service and a Target. *)
Definition inOrderVisitor_VisitParameter (doc : Document) (name : string)
    (param : Param) : M World Param :=
  let* param := ifPresent Pre (pre v) (CallParameter name)
            (λ o, VisitParameter o doc name) param in
  ifPresent Post (post v) (CallParameter name)
    (λ o, VisitParameter o doc name) param.

Definition inOrderVisitor_VisitDependency (doc : Document) (name : string)
    (dep : Dependency) : M World Dependency :=
  let* dep := ifPresent Pre (pre v) (CallDependency name)
          (λ o, VisitDependency o doc name) dep in
  ifPresent Post (post v) (CallDependency name)
    (λ o, VisitDependency o doc name) dep.

Definition inOrderVisitor_VisitService (doc : Document) (name : string)
    (public : bool) (svc : Service) : M World Service :=
  let* svc := ifPresent Pre (pre v) (CallService name public)
          (λ o, VisitService o doc name public) svc in
  ifPresent Post (post v) (CallService name public)
    (λ o, VisitService o doc name public) svc.

Definition inOrderVisitor_VisitTarget (doc : Document) (name : string)
    (target : Target) : M World Target :=
  let* target := ifPresent Pre (pre v) (CallTarget name)
             (λ o, VisitTarget o doc name) target in
  ifPresent Post (post v) (CallTarget name)
    (λ o, VisitTarget o doc name) target.

(** The five loops.  For the targets:
    [targets := make([]string, 0, len(meta.Targets))
     for target := range meta.Targets { targets = append(targets, target) }
     sort.Strings(targets)
     for _, name := range targets {
       target := meta.Targets[name]
       v.VisitTarget(doc, name, &target)
       meta.Targets[name] = target
     }]
    and the same for the parameters and dependencies of a Stack and for the
    public and the private services, which are visited with [public] true
    and false. *)
Definition visitTargets (doc : Document) (m : gmap string Target)
    : M World (gmap string Target) :=
  let targets := sort_Strings (rangeKeys ord m) in
  forEachName CallTarget (inOrderVisitor_VisitTarget doc) targets m.

Definition visitParameters (doc : Document) (m : gmap string Param)
    : M World (gmap string Param) :=
  let params := sort_Strings (rangeKeys ord m) in
  forEachName CallParameter (inOrderVisitor_VisitParameter doc) params m.

Definition visitDependencies (doc : Document) (m : gmap string Dependency)
    : M World (gmap string Dependency) :=
  let deps := sort_Strings (rangeKeys ord m) in
  forEachName CallDependency (inOrderVisitor_VisitDependency doc) deps m.

Definition visitPublic (doc : Document) (m : gmap string Service)
    : M World (gmap string Service) :=
  let publics := sort_Strings (rangeKeys ord m) in
  forEachName (λ name, CallService name true)
    (λ name, inOrderVisitor_VisitService doc name true) publics m.

Definition visitPrivate (doc : Document) (m : gmap string Service)
    : M World (gmap string Service) :=
  let privates := sort_Strings (rangeKeys ord m) in
  forEachName (λ name, CallService name false)
    (λ name, inOrderVisitor_VisitService doc name false) privates m.

(** [VisitMetadata]: the pre observer, the loop over [meta.Targets], the
    post observer. *)
Definition inOrderVisitor_VisitMetadata (doc : Document) (kind : string)
    (meta : Metadata) : M World Metadata :=
  let* meta := ifPresent Pre (pre v) (CallMetadata kind)
           (λ o, VisitMetadata o doc kind) meta in
  let* targets := visitTargets doc (Targets meta) in
  ifPresent Post (post v) (CallMetadata kind)
    (λ o, VisitMetadata o doc kind)
    {| Targets := targets; metadataRest := metadataRest meta |}.

(** [VisitServices]: the loop over [svcs.Public], then the loop over
    [svcs.Private].  The method has no call to [v.pre.VisitServices] or
    [v.post.VisitServices]. *)
Definition inOrderVisitor_VisitServices (doc : Document) (svcs : Services)
    : M World Services :=
  let* publics := visitPublic doc (Public svcs) in
  let* privates := visitPrivate doc (Private svcs) in
  ret {| Public := publics; Private := privates;
         servicesRest := servicesRest svcs |}.

(** [VisitStack]: the pre observer, [v.VisitMetadata(doc, "Stack",
    &stack.Metadata)], the loop over [stack.Parameters], the loop over
    [stack.Dependencies], [v.VisitServices(doc, &stack.Services)], the post
    observer. *)
Definition inOrderVisitor_VisitStack (doc : Document) (stack : Stack)
    : M World Stack :=
  let* stack := ifPresent Pre (pre v) CallStack (λ o, VisitStack o doc) stack in
  let* meta := inOrderVisitor_VisitMetadata doc "Stack" (StackMetadata stack) in
  let* params := visitParameters doc (Parameters stack) in
  let* deps := visitDependencies doc (Dependencies stack) in
  let* svcs := inOrderVisitor_VisitServices doc (StackServices stack) in
  ifPresent Post (post v) CallStack (λ o, VisitStack o doc)
    {| StackMetadata := meta; Parameters := params; Dependencies := deps;
       StackServices := svcs; stackRest := stackRest stack |}.

End methods.

(** [NewInOrderVisitor] hands the [*inOrderVisitor] out as a [Visitor]: the
    methods the interface asks for are the ones above, so a composed visitor
    can itself be the pre or post observer of another one.  [ord] is how
    [range] enumerates inside its methods.  Seen as an observer, a composed
    visitor leaves the record and the state its method leaves; the events of
    its own calls stay inside. *)
Definition inOrderVisitor_Visitor (ord : MapOrder) (v : inOrderVisitor)
    : Visitor :=
  let out {R} (r : Outcome World R) : R * World := (value r, world r) in
  {| Diag := inOrderVisitor_Diag v;
     VisitMetadata := λ doc kind meta w,
       out (inOrderVisitor_VisitMetadata ord v doc kind meta w);
     VisitStack := λ doc stack w,
       out (inOrderVisitor_VisitStack ord v doc stack w);
     VisitParameter := λ doc name param w,
       out (inOrderVisitor_VisitParameter v doc name param w);
     VisitDependency := λ doc name dep w,
       out (inOrderVisitor_VisitDependency v doc name dep w);
     VisitServices := λ doc svcs w,
       out (inOrderVisitor_VisitServices ord v doc svcs w);
     VisitService := λ doc name public svc w,
       out (inOrderVisitor_VisitService v doc name public svc w);
     VisitTarget := λ doc name target w,
       out (inOrderVisitor_VisitTarget v doc name target w) |}.

End visitor.
End core.

(* ===================================================================== *)
(** * Vocabulary of the statements *)
(* ===================================================================== *)

(** Not embedded code: names for what the statements below talk about. *)

(** The keys of a map in ascending byte-wise order. *)
Definition ascendingKeys {V} (m : gmap string V) : list string :=
  sort_Strings (elements (dom m)).

(** The method and key an event is about. *)
Definition callOf (e : Event) : Call :=
  match e with
  | Invoke _ c => c
  | WriteBack c => c
  end.

(** [o != nil] *)
Definition present {A} (o : option A) : bool :=
  match o with Some _ => true | None => false end.

(** The events of one guarded call [if o != nil { o.M(...) }]. *)
Definition hookEvents (h : Hook) (present : bool) (c : Call) : list Event :=
  if present then [Invoke h c] else [].

(** The events of one turn of a loop: the leaf visit, then the store. *)
Definition entryEvents (hasPre hasPost : bool) (c : Call) : list Event :=
  hookEvents Pre hasPre c ++ hookEvents Post hasPost c ++ [WriteBack c].

(** The events of a loop over [names]. *)
Definition loopEvents (hasPre hasPost : bool) (c : string → Call)
    (names : list string) : list Event :=
  names ≫= (λ name, entryEvents hasPre hasPost (c name)).

(** Is the event a call into the post observer? *)
Definition isPostCall (e : Event) : bool :=
  match e with Invoke Post _ => true | _ => false end.



(** What a loop does with the [i]-th key [k] of the map [m] it runs over.
    [turns n] is the loop stopped after [n] keys.  The visit of [k] is handed
    the value [m] held at [k] when the loop began, in the world the turns
    before it left; the turn ends with the store at [k] of what the visit
    returned, and this is what the map holds at [k] when the loop ends. *)
Definition StoresBack {World V} `{!Inhabited V} (c : string → Call)
    (visit : string → V → M World V)
    (loop : gmap string V → M World (gmap string V)) : Prop :=
  ∀ (m : gmap string V) (w : World) (i : nat) (k : string),
    ascendingKeys m !! i = Some k →
    let turns n := core.forEachName c visit (take n (ascendingKeys m)) m w in
    let r := visit k (m !!! k) (world (turns i)) in
    loop m w = turns (length (ascendingKeys m)) ∧
    events (turns (S i)) = events (turns i) ++ events r ++ [WriteBack (c k)] ∧
    value (turns (S i)) !! k = Some (value r) ∧
    world (turns (S i)) = world r ∧
    value (loop m w) !! k = Some (value r).

(** The pre observer's method, then the post observer's on what it left. *)
Definition preThenPost {World R} (f g : R → World → R * World)
    (x : R) (w : World) : R * World :=
  g (f x w).1 (f x w).2.

(** With both observers there, what the map holds at [k] when the loop ends
    is what the post observer left of what the pre observer left of the value
    at [k]. *)
Definition StoresAfterBoth {World V} `{!Inhabited V} (c : string → Call)
    (visit : string → V → M World V)
    (f g : string → V → World → V * World)
    (loop : gmap string V → M World (gmap string V)) : Prop :=
  ∀ (m : gmap string V) (w : World) (i : nat) (k : string),
    ascendingKeys m !! i = Some k →
    let before := core.forEachName c visit (take i (ascendingKeys m)) m w in
    value (loop m w) !! k =
    Some (preThenPost (f k) (g k) (m !!! k) (world before)).1.

Section vocabulary.
Import core.
Context {Document Sink World : Type}.
Context {Target Param Dependency Service : Type}.
Context {MetadataRest StackRest ServicesRest : Type}.

Abbreviation TheVisitor := (@Visitor Document Sink World Target Param Dependency
                          Service MetadataRest StackRest ServicesRest).
Abbreviation TheInOrderVisitor := (@inOrderVisitor Document Sink World Target Param
                          Dependency Service MetadataRest StackRest ServicesRest).

(** The first statement of [VisitStack]: the guarded call of the pre
    observer.  Its value is the Stack the rest of the method works on. *)
Definition preStack (v : TheInOrderVisitor) (doc : Document)
    (stack : Stack) : M World Stack :=
  ifPresent Pre (pre v) CallStack (λ o, VisitStack o doc) stack.

(** The first statement of [VisitMetadata]. *)
Definition preMetadata (v : TheInOrderVisitor) (doc : Document)
    (kind : string) (meta : Metadata) : M World Metadata :=
  ifPresent Pre (pre v) (CallMetadata kind) (λ o, VisitMetadata o doc kind) meta.

(** An observer whose methods do nothing. *)
Definition idleVisitor : TheVisitor :=
  {| Diag := None;
     VisitMetadata := λ _ _ meta w, (meta, w);
     VisitStack := λ _ stack w, (stack, w);
     VisitParameter := λ _ _ x w, (x, w);
     VisitDependency := λ _ _ x w, (x, w);
     VisitServices := λ _ svcs w, (svcs, w);
     VisitService := λ _ _ _ x w, (x, w);
     VisitTarget := λ _ _ x w, (x, w) |}.

(** An observer that leaves every record it is handed as it found it (it
    may still log, count or report). *)
Record NoMutation (o : TheVisitor) : Prop := {
  same_Metadata : ∀ doc kind meta w, (VisitMetadata o doc kind meta w).1 = meta;
  same_Stack : ∀ doc stack w, (VisitStack o doc stack w).1 = stack;
  same_Parameter : ∀ doc name x w, (VisitParameter o doc name x w).1 = x;
  same_Dependency : ∀ doc name x w, (VisitDependency o doc name x w).1 = x;
  same_Services : ∀ doc svcs w, (VisitServices o doc svcs w).1 = svcs;
  same_Service : ∀ doc name public x w, (VisitService o doc name public x w).1 = x;
  same_Target : ∀ doc name x w, (VisitTarget o doc name x w).1 = x
}.

(** An observer whose [VisitStack] and [VisitMetadata] leave the key sets of
    the mappings of the record as they are: it changes records, it does not
    add or remove entries. *)
Record KeepsKeys (o : TheVisitor) : Prop := {
  keys_Metadata : ∀ doc kind meta w,
    dom (Targets (VisitMetadata o doc kind meta w).1) = dom (Targets meta);
  keys_Targets : ∀ doc stack w,
    dom (Targets (StackMetadata (VisitStack o doc stack w).1))
    = dom (Targets (StackMetadata stack));
  keys_Parameters : ∀ doc stack w,
    dom (Parameters (VisitStack o doc stack w).1) = dom (Parameters stack);
  keys_Dependencies : ∀ doc stack w,
    dom (Dependencies (VisitStack o doc stack w).1) = dom (Dependencies stack);
  keys_Public : ∀ doc stack w,
    dom (Public (StackServices (VisitStack o doc stack w).1))
    = dom (Public (StackServices stack));
  keys_Private : ∀ doc stack w,
    dom (Private (StackServices (VisitStack o doc stack w).1))
    = dom (Private (StackServices stack))
}.

(** An observer whose [VisitStack] and [VisitMetadata] leave the mappings
    of the record as they are (they may change the other fields): entries
    change in the visits of the entries only. *)
Record KeepsMappings (o : TheVisitor) : Prop := {
  maps_Metadata : ∀ doc kind meta w,
    Targets (VisitMetadata o doc kind meta w).1 = Targets meta;
  maps_Targets : ∀ doc stack w,
    Targets (StackMetadata (VisitStack o doc stack w).1)
    = Targets (StackMetadata stack);
  maps_Parameters : ∀ doc stack w,
    Parameters (VisitStack o doc stack w).1 = Parameters stack;
  maps_Dependencies : ∀ doc stack w,
    Dependencies (VisitStack o doc stack w).1 = Dependencies stack;
  maps_Public : ∀ doc stack w,
    Public (StackServices (VisitStack o doc stack w).1)
    = Public (StackServices stack);
  maps_Private : ∀ doc stack w,
    Private (StackServices (VisitStack o doc stack w).1)
    = Private (StackServices stack)
}.

(** The key a store is made at was a key of the mapping of [stack]. *)
Definition ExistingKey
    (stack : @Stack Target Param Dependency Service MetadataRest StackRest
               ServicesRest) (c : Call) : Prop :=
  match c with
  | CallTarget name => name ∈ dom (Targets (StackMetadata stack))
  | CallParameter name => name ∈ dom (Parameters stack)
  | CallDependency name => name ∈ dom (Dependencies stack)
  | CallService name true => name ∈ dom (Public (StackServices stack))
  | CallService name false => name ∈ dom (Private (StackServices stack))
  | CallMetadata _ | CallStack | CallServices => False
  end.

(** A property of the observers that are there. *)
Definition Both (P : TheVisitor → Prop) (v : TheInOrderVisitor) : Prop :=
  (∀ o, pre v = Some o → P o) ∧ (∀ o, post v = Some o → P o).
End vocabulary.

(** ** Vocabulary for observers that rewrite records *)

(** [g] applied to every entry of a map, under its key. *)
Definition mapEntries {V} (g : string → V → V) (m : gmap string V)
    : gmap string V :=
  map_imap (λ k x, Some (g k x)) m.



Section rewriting.
Import core.
Context {Document Sink World : Type}.
Context {Target Param Dependency Service : Type}.
Context {MetadataRest StackRest ServicesRest : Type}.
Context `{!Inhabited Target, !Inhabited Param,
          !Inhabited Dependency, !Inhabited Service}.

Local Abbreviation TheVisitor :=
  (@Visitor Document Sink World Target Param Dependency
     Service MetadataRest StackRest ServicesRest).
Local Abbreviation TheInOrderVisitor :=
  (@inOrderVisitor Document Sink World Target Param
     Dependency Service MetadataRest StackRest ServicesRest).
Local Abbreviation TheStack :=
  (@Stack Target Param Dependency Service MetadataRest StackRest ServicesRest).
Local Abbreviation TheMetadata := (@Metadata Target MetadataRest).
Local Abbreviation TheServices := (@Services Service ServicesRest).

(** An observer whose way of rewriting a record does not depend on the state
    it has accumulated (it may still accumulate state). *)
Record WorldBlind (o : TheVisitor) : Prop := {
  blind_Metadata : ∀ doc kind meta w w',
    (VisitMetadata o doc kind meta w).1 = (VisitMetadata o doc kind meta w').1;
  blind_Stack : ∀ doc stack w w',
    (VisitStack o doc stack w).1 = (VisitStack o doc stack w').1;
  blind_Parameter : ∀ doc name x w w',
    (VisitParameter o doc name x w).1 = (VisitParameter o doc name x w').1;
  blind_Dependency : ∀ doc name x w w',
    (VisitDependency o doc name x w).1 = (VisitDependency o doc name x w').1;
  blind_Service : ∀ doc name public x w w',
    (VisitService o doc name public x w).1
    = (VisitService o doc name public x w').1;
  blind_Target : ∀ doc name x w w',
    (VisitTarget o doc name x w).1 = (VisitTarget o doc name x w').1
}.

(** The record an observer that may be nil leaves, taken at the state [w0]. *)
Definition recordOf {R} (o : option TheVisitor)
    (method : TheVisitor → R → World → R * World) (w0 : World) (x : R) : R :=
  match o with
  | Some ob => (method ob x w0).1
  | None => x
  end.

(** The pre observer's rewriting of a leaf, then the post observer's. *)
Definition leafOf {R} (v : TheInOrderVisitor) (w0 : World)
    (method : TheVisitor → string → R → World → R * World)
    (name : string) (x : R) : R :=
  recordOf (post v) (λ o, method o name) w0
    (recordOf (pre v) (λ o, method o name) w0 x).

(** What a traversal makes of a Metadata, a Services and a Stack, written
    without loops, sorting or state: every mapping has the leaf rewriting
    applied entry by entry. *)
Definition rewriteMetadata (v : TheInOrderVisitor) (w0 : World) (doc : Document)
    (kind : string) (meta : TheMetadata) : TheMetadata :=
  let meta1 := recordOf (pre v) (λ o, VisitMetadata o doc kind) w0 meta in
  recordOf (post v) (λ o, VisitMetadata o doc kind) w0
    {| Targets := mapEntries (leafOf v w0 (λ o, VisitTarget o doc))
                    (Targets meta1);
       metadataRest := metadataRest meta1 |}.

Definition rewriteServices (v : TheInOrderVisitor) (w0 : World) (doc : Document)
    (svcs : TheServices) : TheServices :=
  {| Public := mapEntries (leafOf v w0 (λ o name, VisitService o doc name true))
                 (Public svcs);
     Private := mapEntries (leafOf v w0 (λ o name, VisitService o doc name false))
                  (Private svcs);
     servicesRest := servicesRest svcs |}.

Definition rewriteStack (v : TheInOrderVisitor) (w0 : World) (doc : Document)
    (stack : TheStack) : TheStack :=
  let s := recordOf (pre v) (λ o, VisitStack o doc) w0 stack in
  recordOf (post v) (λ o, VisitStack o doc) w0
    {| StackMetadata := rewriteMetadata v w0 doc "Stack" (StackMetadata s);
       Parameters := mapEntries (leafOf v w0 (λ o, VisitParameter o doc))
                       (Parameters s);
       Dependencies := mapEntries (leafOf v w0 (λ o, VisitDependency o doc))
                         (Dependencies s);
       StackServices := rewriteServices v w0 doc (StackServices s);
       stackRest := stackRest s |}.

(** The observer behind a hook. *)
Definition observerOf (v : TheInOrderVisitor) (h : Hook) : option TheVisitor :=
  match h with Pre => pre v | Post => post v end.

(** What the call recorded by an event does to the observer state, when the
    records are those of [stack]; a store does nothing to it. *)
Definition effect (v : TheInOrderVisitor) (doc : Document) (stack : TheStack)
    (w : World) (e : Event) : World :=
  match e with
  | WriteBack _ => w
  | Invoke h c =>
      match observerOf v h with
      | None => w
      | Some o =>
          match c with
          | CallStack => (VisitStack o doc stack w).2
          | CallMetadata kind =>
              (VisitMetadata o doc kind (StackMetadata stack) w).2
          | CallTarget name =>
              (VisitTarget o doc name
                 (Targets (StackMetadata stack) !!! name) w).2
          | CallParameter name =>
              (VisitParameter o doc name (Parameters stack !!! name) w).2
          | CallDependency name =>
              (VisitDependency o doc name (Dependencies stack !!! name) w).2
          | CallServices => (VisitServices o doc (StackServices stack) w).2
          | CallService name true =>
              (VisitService o doc name true
                 (Public (StackServices stack) !!! name) w).2
          | CallService name false =>
              (VisitService o doc name false
                 (Private (StackServices stack) !!! name) w).2
          end
      end
  end.

End rewriting.

(* ===================================================================== *)
(** * Concrete observers and stacks *)
(* ===================================================================== *)

Module sample.
Import core.

(** Records are numbers, an observer keeps a log of lines. *)
Abbreviation SVisitor :=
  (@Visitor unit string (list string) nat nat nat nat unit unit unit).
Abbreviation SStack := (@Stack nat nat nat nat unit unit unit).
Abbreviation SServices := (@Services nat unit).

(** Logs every call and leaves every record as it is. *)
Definition recorder (tag : string) : SVisitor :=
  {| Diag := Some tag;
     VisitMetadata := λ _ kind meta w, (meta, w ++ [tag +:+ "metadata " +:+ kind]);
     VisitStack := λ _ stack w, (stack, w ++ [tag +:+ "stack"]);
     VisitParameter := λ _ name x w, (x, w ++ [tag +:+ "parameter " +:+ name]);
     VisitDependency := λ _ name x w, (x, w ++ [tag +:+ "dependency " +:+ name]);
     VisitServices := λ _ svcs w, (svcs, w ++ [tag +:+ "services"]);
     VisitService := λ _ name _ x w, (x, w ++ [tag +:+ "service " +:+ name]);
     VisitTarget := λ _ name x w, (x, w ++ [tag +:+ "target " +:+ name]) |}.

(** Logs every call and adds [n] to every leaf record. *)
Definition bumper (tag : string) (n : nat) : SVisitor :=
  {| Diag := None;
     VisitMetadata := VisitMetadata (recorder tag);
     VisitStack := VisitStack (recorder tag);
     VisitParameter := λ _ name x w, (x + n, w ++ [tag +:+ "parameter " +:+ name]);
     VisitDependency := λ _ name x w, (x + n, w ++ [tag +:+ "dependency " +:+ name]);
     VisitServices := VisitServices (recorder tag);
     VisitService := λ _ name _ x w, (x + n, w ++ [tag +:+ "service " +:+ name]);
     VisitTarget := λ _ name x w, (x + n, w ++ [tag +:+ "target " +:+ name]) |}.

(** Doubles every leaf record. *)
Definition doubler (tag : string) : SVisitor :=
  {| Diag := None;
     VisitMetadata := VisitMetadata (recorder tag);
     VisitStack := VisitStack (recorder tag);
     VisitParameter := λ _ name x w, (2 * x, w ++ [tag +:+ "parameter " +:+ name]);
     VisitDependency := λ _ name x w, (2 * x, w ++ [tag +:+ "dependency " +:+ name]);
     VisitServices := VisitServices (recorder tag);
     VisitService := λ _ name _ x w, (2 * x, w ++ [tag +:+ "service " +:+ name]);
     VisitTarget := λ _ name x w, (2 * x, w ++ [tag +:+ "target " +:+ name]) |}.

Definition services : SServices :=
  {| Public := {[ "z" := 7 ]}; Private := {[ "a" := 8 ]}; servicesRest := tt |}.

Definition stack : SStack :=
  {| StackMetadata := {| Targets := {[ "t2" := 1; "t1" := 2 ]}; metadataRest := tt |};
     Parameters := {[ "b" := 10; "a" := 20; "c" := 30 ]};
     Dependencies := {[ "d" := 5 ]};
     StackServices := services;
     stackRest := tt |}.

(** Its [VisitStack] adds a parameter [zz] to the Stack it is handed and
    touches nothing else; its other methods only log. *)
Definition adder (tag : string) : SVisitor :=
  {| Diag := None;
     VisitMetadata := VisitMetadata (recorder tag);
     VisitStack := λ _ stack w,
       ({| StackMetadata := StackMetadata stack;
           Parameters := <["zz" := 0]> (Parameters stack);
           Dependencies := Dependencies stack;
           StackServices := StackServices stack;
           stackRest := stackRest stack |},
        w ++ [tag +:+ "stack"]);
     VisitParameter := VisitParameter (recorder tag);
     VisitDependency := VisitDependency (recorder tag);
     VisitServices := VisitServices (recorder tag);
     VisitService := VisitService (recorder tag);
     VisitTarget := VisitTarget (recorder tag) |}.

(** A Stack without a single entry. *)
Definition emptyStack : SStack :=
  {| StackMetadata := {| Targets := ∅; metadataRest := tt |};
     Parameters := ∅;
     Dependencies := ∅;
     StackServices := {| Public := ∅; Private := ∅; servicesRest := tt |};
     stackRest := tt |}.
End sample.

(* ===================================================================== *)
(** * Facts *)
(* ===================================================================== *)

Import core.

(** ** Sorting the keys *)

Lemma sort_Strings_sorted (l : list string) :
  StronglySorted String.le (sort_Strings l).
Proof. apply (StronglySorted_merge_sort String.le). Qed.

Lemma sort_Strings_perm (l : list string) : sort_Strings l ≡ₚ l.
Proof. apply (merge_sort_Permutation String.le). Qed.

Lemma sort_Strings_unique (l1 l2 : list string) :
  l1 ≡ₚ l2 → sort_Strings l1 = sort_Strings l2.
Proof.
  intros Hp.
  apply (StronglySorted_unique String.le); auto using sort_Strings_sorted.
  by rewrite !sort_Strings_perm.
Qed.

Lemma sort_rangeKeys (ord : MapOrder) {V} (m : gmap string V) :
  sort_Strings (rangeKeys ord m) = ascendingKeys m.
Proof. apply sort_Strings_unique, rangeKeys_perm. Qed.

Lemma ascendingKeys_perm {V} (m : gmap string V) :
  ascendingKeys m ≡ₚ elements (dom m).
Proof. apply sort_Strings_perm. Qed.

Lemma ascendingKeys_sorted {V} (m : gmap string V) :
  StronglySorted String.le (ascendingKeys m).
Proof. apply sort_Strings_sorted. Qed.

Lemma ascendingKeys_NoDup {V} (m : gmap string V) : NoDup (ascendingKeys m).
Proof. rewrite ascendingKeys_perm. apply NoDup_elements. Qed.

Lemma elem_of_ascendingKeys {V} (m : gmap string V) (k : string) :
  k ∈ ascendingKeys m ↔ is_Some (m !! k).
Proof. by rewrite ascendingKeys_perm, elem_of_elements, elem_of_dom. Qed.

Lemma keys_in_dom {V} (m : gmap string V) (k : string) :
  k ∈ ascendingKeys m → k ∈ dom m.
Proof. by rewrite elem_of_ascendingKeys, elem_of_dom. Qed.

(** Ascending and without repetition: strictly ascending. *)
Lemma ascendingKeys_strict {V} (m : gmap string V) (i j : nat) (a b : string) :
  ascendingKeys m !! i = Some a → ascendingKeys m !! j = Some b → i < j →
  String.le a b ∧ a ≠ b.
Proof.
  intros Hi Hj Hlt. split.
  - pose proof (ascendingKeys_sorted m) as Hs.
    rewrite <-(take_drop j (ascendingKeys m)) in Hs.
    apply (StronglySorted_app_1_elem_of _ _ _ a b) in Hs; [done| |].
    + apply elem_of_take. eauto.
    + apply list_elem_of_lookup. exists 0. by rewrite lookup_drop, Nat.add_0_r.
  - intros ->. pose proof (ascendingKeys_NoDup m) as Hn.
    pose proof (NoDup_lookup _ _ _ _ Hn Hi Hj). lia.
Qed.

(** ** The loop over a list of names *)

Section loop.
Context {World V : Type} `{!Inhabited V}.
Variable c : string → Call.
Variable visit : string → V → M World V.

Lemma forEachName_nil (m : gmap string V) (w : World) :
  forEachName c visit [] m w = ret m w.
Proof. reflexivity. Qed.

Lemma forEachName_cons_value name names (m : gmap string V) (w : World) :
  value (forEachName c visit (name :: names) m w) =
  value (forEachName c visit names
           (<[name := value (visit name (m !!! name) w)]> m)
           (world (visit name (m !!! name) w))).
Proof. reflexivity. Qed.

Lemma forEachName_cons_world name names (m : gmap string V) (w : World) :
  world (forEachName c visit (name :: names) m w) =
  world (forEachName c visit names
           (<[name := value (visit name (m !!! name) w)]> m)
           (world (visit name (m !!! name) w))).
Proof. reflexivity. Qed.

Lemma forEachName_cons_events name names (m : gmap string V) (w : World) :
  events (forEachName c visit (name :: names) m w) =
  events (visit name (m !!! name) w) ++ WriteBack (c name) ::
  events (forEachName c visit names
            (<[name := value (visit name (m !!! name) w)]> m)
            (world (visit name (m !!! name) w))).
Proof. reflexivity. Qed.

(** Running the loop over [l1 ++ l2] is running it over [l1], then over
    [l2] from where the first run stopped. *)
Lemma forEachName_app l1 l2 (m : gmap string V) (w : World) :
  let r1 := forEachName c visit l1 m w in
  let r2 := forEachName c visit l2 (value r1) (world r1) in
  value (forEachName c visit (l1 ++ l2) m w) = value r2 ∧
  world (forEachName c visit (l1 ++ l2) m w) = world r2 ∧
  events (forEachName c visit (l1 ++ l2) m w) = events r1 ++ events r2.
Proof.
  revert m w. induction l1 as [|name l1 IH]; intros m w; [done|].
  cbn zeta. rewrite <-app_comm_cons.
  rewrite !forEachName_cons_value, !forEachName_cons_world,
    !forEachName_cons_events.
  destruct (IH (<[name := value (visit name (m !!! name) w)]> m)
               (world (visit name (m !!! name) w))) as (Hv & Hw & He).
  rewrite Hv, Hw, He. by rewrite <-!app_assoc.
Qed.

(** The loop stores at the names it is given and nowhere else. *)
Lemma forEachName_lookup_other names (m : gmap string V) (w : World) k :
  k ∉ names → value (forEachName c visit names m w) !! k = m !! k.
Proof.
  revert m w. induction names as [|name names IH]; intros m w Hk; [done|].
  apply not_elem_of_cons in Hk as [Hne Hk].
  rewrite forEachName_cons_value, IH by done.
  by rewrite lookup_insert_ne.
Qed.

Lemma forEachName_dom names (m : gmap string V) (w : World) :
  dom (value (forEachName c visit names m w)) = dom m ∪ list_to_set names.
Proof.
  revert m w. induction names as [|name names IH]; intros m w.
  - cbn. by rewrite (right_id_L ∅ (∪)).
  - rewrite forEachName_cons_value, IH, dom_insert_L, list_to_set_cons.
    by rewrite (comm_L (∪) {[name]} (dom m)), (assoc_L (∪)).
Qed.

(** Names that are keys already: the key set stays as it is. *)
Lemma forEachName_dom_keys names (m : gmap string V) (w : World) :
  (∀ k, k ∈ names → k ∈ dom m) →
  dom (value (forEachName c visit names m w)) = dom m.
Proof.
  intros Hk. rewrite forEachName_dom. apply set_eq. intros k.
  rewrite elem_of_union, elem_of_list_to_set.
  split; [intros [Hin|Hin]|]; auto.
Qed.

(** The turn of the [i]-th name [k]: the visit receives the value the map
    held at [k] before the loop, in the world the first [i] turns left, and
    what it returns is in the map at [k] when the turn ends and when the
    loop ends. *)
Lemma forEachName_turn names (m : gmap string V) (w : World) i k :
  NoDup names → names !! i = Some k →
  let turns n := forEachName c visit (take n names) m w in
  let r := visit k (m !!! k) (world (turns i)) in
  events (turns (S i)) = events (turns i) ++ events r ++ [WriteBack (c k)] ∧
  value (turns (S i)) !! k = Some (value r) ∧
  world (turns (S i)) = world r ∧
  value (forEachName c visit names m w) !! k = Some (value r).
Proof.
  intros Hnd Hi turns r.
  assert (k ∉ take i names) as Hk1.
  { rewrite elem_of_take. intros (j & Hj & Hlt).
    pose proof (NoDup_lookup _ _ _ _ Hnd Hi Hj). lia. }
  assert (k ∉ drop (S i) names) as Hk2.
  { rewrite list_elem_of_lookup. intros (j & Hj). rewrite lookup_drop in Hj.
    pose proof (NoDup_lookup _ _ _ _ Hnd Hi Hj). lia. }
  assert (value (turns i) !!! k = m !!! k) as Hread.
  { rewrite !lookup_total_alt. unfold turns.
    by rewrite forEachName_lookup_other. }
  assert (events (turns (S i)) = events (turns i) ++ events r ++ [WriteBack (c k)]
          ∧ value (turns (S i)) !! k = Some (value r)
          ∧ world (turns (S i)) = world r)
    as (He & Hv & Hw).
  { unfold turns at 1 3 4. rewrite (take_S_r _ _ _ Hi).
    destruct (forEachName_app (take i names) [k] m w) as (-> & -> & ->).
    fold (turns i).
    rewrite forEachName_cons_value, forEachName_cons_world,
      forEachName_cons_events.
    cbn. rewrite Hread. by rewrite lookup_insert_eq. }
  split_and!; [done..|].
  rewrite <-(take_drop (S i) names) at 1.
  destruct (forEachName_app (take (S i) names) (drop (S i) names) m w)
    as (-> & _ & _).
  fold (turns (S i)). by rewrite forEachName_lookup_other.
Qed.

(** A visit that returns what it was given leaves the map as it was. *)
Lemma forEachName_unchanged names (m : gmap string V) (w : World) :
  (∀ name x w', value (visit name x w') = x) →
  (∀ k, k ∈ names → k ∈ dom m) →
  value (forEachName c visit names m w) = m.
Proof.
  intros Hid. revert m w.
  induction names as [|name names IH]; intros m w Hk; [done|].
  rewrite forEachName_cons_value, Hid.
  assert (<[name := m !!! name]> m = m) as ->.
  { assert (is_Some (m !! name)) as [x Hx].
    { apply elem_of_dom, Hk. left. }
    apply insert_id. by rewrite (lookup_total_correct _ _ _ Hx). }
  apply IH. intros k Hin. apply Hk. by right.
Qed.

(** The events of the loop, when those of a visit are the guarded calls. *)
Lemma forEachName_events (hasPre hasPost : bool) names (m : gmap string V) w :
  (∀ name x w', events (visit name x w') =
     hookEvents Pre hasPre (c name) ++ hookEvents Post hasPost (c name)) →
  events (forEachName c visit names m w) = loopEvents hasPre hasPost c names.
Proof.
  intros Hev. revert m w.
  induction names as [|name names IH]; intros m w; [done|].
  rewrite forEachName_cons_events, Hev, IH.
  unfold loopEvents at 2. rewrite bind_cons. unfold entryEvents.
  by rewrite <-!app_assoc.
Qed.
End loop.

Lemma StoresBack_intro {World V} `{!Inhabited V} (c : string → Call)
    (visit : string → V → M World V)
    (loop : gmap string V → M World (gmap string V)) :
  (∀ m, loop m = forEachName c visit (ascendingKeys m) m) →
  StoresBack c visit loop.
Proof.
  intros Hloop m w i k Hi turns r.
  destruct (forEachName_turn c visit (ascendingKeys m) m w i k
              (ascendingKeys_NoDup m) Hi) as (He & Hv & Hw & Hend).
  split_and!; try done.
  - unfold turns. by rewrite Hloop, take_ge.
  - by rewrite Hloop.
Qed.

(** ** The methods of the composed visitor *)

Section traversal.
Context {Document Sink World : Type}.
Context {Target Param Dependency Service : Type}.
Context {MetadataRest StackRest ServicesRest : Type}.
Context `{!Inhabited Target, !Inhabited Param,
          !Inhabited Dependency, !Inhabited Service}.

Local Abbreviation TheVisitor :=
  (@Visitor Document Sink World Target Param Dependency
     Service MetadataRest StackRest ServicesRest).
Local Abbreviation TheInOrderVisitor :=
  (@inOrderVisitor Document Sink World Target Param
     Dependency Service MetadataRest StackRest ServicesRest).
Local Abbreviation TheStack :=
  (@Stack Target Param Dependency Service MetadataRest StackRest ServicesRest).
Local Abbreviation TheMetadata := (@Metadata Target MetadataRest).
Local Abbreviation TheServices := (@Services Service ServicesRest).

Implicit Types (ord : MapOrder) (v : TheInOrderVisitor) (doc : Document)
  (w : World) (stack : TheStack) (meta : TheMetadata) (svcs : TheServices).

Lemma ifPresent_events {R} h (o : option TheVisitor) c
    (method : TheVisitor → R → World → R * World) (r : R) w :
  events (ifPresent h o c method r w) = hookEvents h (present o) c.
Proof. by destruct o. Qed.

(** *** Leaf visits *)

Lemma VisitTarget_events v doc name (x : Target) w :
  events (inOrderVisitor_VisitTarget v doc name x w) =
  hookEvents Pre (present (pre v)) (CallTarget name) ++
  hookEvents Post (present (post v)) (CallTarget name).
Proof.
  unfold inOrderVisitor_VisitTarget, bind. cbn [events].
  by rewrite !ifPresent_events.
Qed.

Lemma VisitParameter_events v doc name (x : Param) w :
  events (inOrderVisitor_VisitParameter v doc name x w) =
  hookEvents Pre (present (pre v)) (CallParameter name) ++
  hookEvents Post (present (post v)) (CallParameter name).
Proof.
  unfold inOrderVisitor_VisitParameter, bind. cbn [events].
  by rewrite !ifPresent_events.
Qed.

Lemma VisitDependency_events v doc name (x : Dependency) w :
  events (inOrderVisitor_VisitDependency v doc name x w) =
  hookEvents Pre (present (pre v)) (CallDependency name) ++
  hookEvents Post (present (post v)) (CallDependency name).
Proof.
  unfold inOrderVisitor_VisitDependency, bind. cbn [events].
  by rewrite !ifPresent_events.
Qed.

Lemma VisitService_events v doc name public (x : Service) w :
  events (inOrderVisitor_VisitService v doc name public x w) =
  hookEvents Pre (present (pre v)) (CallService name public) ++
  hookEvents Post (present (post v)) (CallService name public).
Proof.
  unfold inOrderVisitor_VisitService, bind. cbn [events].
  by rewrite !ifPresent_events.
Qed.

(** *** The five loops run over the ascending keys, whatever [range] does *)

Lemma visitTargets_eq ord v doc (m : gmap string Target) :
  visitTargets ord v doc m =
  forEachName CallTarget (inOrderVisitor_VisitTarget v doc) (ascendingKeys m) m.
Proof. unfold visitTargets. by rewrite sort_rangeKeys. Qed.

Lemma visitParameters_eq ord v doc (m : gmap string Param) :
  visitParameters ord v doc m =
  forEachName CallParameter (inOrderVisitor_VisitParameter v doc)
    (ascendingKeys m) m.
Proof. unfold visitParameters. by rewrite sort_rangeKeys. Qed.

Lemma visitDependencies_eq ord v doc (m : gmap string Dependency) :
  visitDependencies ord v doc m =
  forEachName CallDependency (inOrderVisitor_VisitDependency v doc)
    (ascendingKeys m) m.
Proof. unfold visitDependencies. by rewrite sort_rangeKeys. Qed.

Lemma visitPublic_eq ord v doc (m : gmap string Service) :
  visitPublic ord v doc m =
  forEachName (λ name, CallService name true)
    (λ name, inOrderVisitor_VisitService v doc name true) (ascendingKeys m) m.
Proof. unfold visitPublic. by rewrite sort_rangeKeys. Qed.

Lemma visitPrivate_eq ord v doc (m : gmap string Service) :
  visitPrivate ord v doc m =
  forEachName (λ name, CallService name false)
    (λ name, inOrderVisitor_VisitService v doc name false) (ascendingKeys m) m.
Proof. unfold visitPrivate. by rewrite sort_rangeKeys. Qed.

Lemma visitTargets_events ord v doc (m : gmap string Target) w :
  events (visitTargets ord v doc m w) =
  loopEvents (present (pre v)) (present (post v)) CallTarget (ascendingKeys m).
Proof.
  rewrite visitTargets_eq. apply forEachName_events.
  intros. apply VisitTarget_events.
Qed.

Lemma visitParameters_events ord v doc (m : gmap string Param) w :
  events (visitParameters ord v doc m w) =
  loopEvents (present (pre v)) (present (post v)) CallParameter (ascendingKeys m).
Proof.
  rewrite visitParameters_eq. apply forEachName_events.
  intros. apply VisitParameter_events.
Qed.

Lemma visitDependencies_events ord v doc (m : gmap string Dependency) w :
  events (visitDependencies ord v doc m w) =
  loopEvents (present (pre v)) (present (post v)) CallDependency (ascendingKeys m).
Proof.
  rewrite visitDependencies_eq. apply forEachName_events.
  intros. apply VisitDependency_events.
Qed.

Lemma visitPublic_events ord v doc (m : gmap string Service) w :
  events (visitPublic ord v doc m w) =
  loopEvents (present (pre v)) (present (post v))
    (λ name, CallService name true) (ascendingKeys m).
Proof.
  rewrite visitPublic_eq.
  apply (forEachName_events (λ name, CallService name true)).
  intros. apply VisitService_events.
Qed.

Lemma visitPrivate_events ord v doc (m : gmap string Service) w :
  events (visitPrivate ord v doc m w) =
  loopEvents (present (pre v)) (present (post v))
    (λ name, CallService name false) (ascendingKeys m).
Proof.
  rewrite visitPrivate_eq.
  apply (forEachName_events (λ name, CallService name false)).
  intros. apply VisitService_events.
Qed.

(** *** The containers *)

Lemma VisitServices_events ord v doc svcs w :
  events (inOrderVisitor_VisitServices ord v doc svcs w) =
  loopEvents (present (pre v)) (present (post v))
    (λ name, CallService name true) (ascendingKeys (Public svcs)) ++
  loopEvents (present (pre v)) (present (post v))
    (λ name, CallService name false) (ascendingKeys (Private svcs)).
Proof.
  unfold inOrderVisitor_VisitServices, bind. cbn [events ret].
  by rewrite visitPublic_events, visitPrivate_events, app_nil_r.
Qed.

Lemma VisitMetadata_events ord v doc kind meta w :
  events (inOrderVisitor_VisitMetadata ord v doc kind meta w) =
  hookEvents Pre (present (pre v)) (CallMetadata kind) ++
  loopEvents (present (pre v)) (present (post v)) CallTarget
    (ascendingKeys (Targets (value (preMetadata v doc kind meta w)))) ++
  hookEvents Post (present (post v)) (CallMetadata kind).
Proof.
  unfold inOrderVisitor_VisitMetadata, bind. cbn [events].
  by rewrite !ifPresent_events, visitTargets_events.
Qed.

Lemma VisitStack_events ord v doc stack w :
  let hasPre := present (pre v) in
  let hasPost := present (post v) in
  let s := preStack v doc stack w in
  let meta := preMetadata v doc "Stack" (StackMetadata (value s)) (world s) in
  events (inOrderVisitor_VisitStack ord v doc stack w) =
  hookEvents Pre hasPre CallStack ++
  (hookEvents Pre hasPre (CallMetadata "Stack") ++
   loopEvents hasPre hasPost CallTarget (ascendingKeys (Targets (value meta))) ++
   hookEvents Post hasPost (CallMetadata "Stack")) ++
  loopEvents hasPre hasPost CallParameter
    (ascendingKeys (Parameters (value s))) ++
  loopEvents hasPre hasPost CallDependency
    (ascendingKeys (Dependencies (value s))) ++
  (loopEvents hasPre hasPost (λ name, CallService name true)
     (ascendingKeys (Public (StackServices (value s)))) ++
   loopEvents hasPre hasPost (λ name, CallService name false)
     (ascendingKeys (Private (StackServices (value s))))) ++
  hookEvents Post hasPost CallStack.
Proof.
  intros hasPre hasPost s meta.
  unfold inOrderVisitor_VisitStack, bind. cbn [events].
  rewrite !ifPresent_events, VisitMetadata_events, visitParameters_events,
    visitDependencies_events, VisitServices_events.
  reflexivity.
Qed.
End traversal.

(* ===================================================================== *)
(** * The cloud architecture tables *)
(* ===================================================================== *)

(** C8: the two tables are inverse to each other on the five architectures
    and the five names: looking up the name of an architecture and then the
    architecture of that name gives the architecture back, and the other way
    round; the empty name stands for [NoArch]. *)
Theorem C8_arch_tables_mutually_inverse :
  Forall (λ a, clouds.ArchMap !! clouds.ArchNames_index a = Some a
               ∧ clouds.ArchMap_index (clouds.ArchNames_index a) = a)
    clouds.archs ∧
  Forall (λ n, clouds.ArchNames !! clouds.ArchMap_index n = Some n
               ∧ clouds.ArchNames_index (clouds.ArchMap_index n) = n)
    clouds.names ∧
  clouds.ArchMap_index "" = clouds.NoArch ∧
  clouds.ArchNames_index clouds.NoArch = "" ∧
  dom clouds.ArchNames = list_to_set clouds.archs ∧
  dom clouds.ArchMap = list_to_set clouds.names.
Proof.
  split_and!.
  - repeat constructor.
  - repeat constructor.
  - reflexivity.
  - reflexivity.
  - by vm_compute.
  - by vm_compute.
Qed.

(* ===================================================================== *)
(** * Order of the traversal *)
(* ===================================================================== *)

(** ** What the projections see in the events of a loop *)

Lemma hookEvents_callOf h b c :
  Forall (λ e, callOf e = c) (hookEvents h b c).
Proof. destruct b; repeat constructor. Qed.

Lemma loopEvents_callOf hasPre hasPost c names :
  Forall (λ e, ∃ name, name ∈ names ∧ callOf e = c name)
    (loopEvents hasPre hasPost c names).
Proof.
  unfold loopEvents. induction names as [|name names IH]; [constructor|].
  rewrite bind_cons. apply Forall_app. split.
  - unfold entryEvents. rewrite !Forall_app, Forall_singleton.
    split_and!; [eapply Forall_impl; [apply hookEvents_callOf|]..|];
      cbn; intros; exists name; split; auto; by left.
  - eapply Forall_impl; [exact IH|].
    cbn. intros e (n & Hn & He). exists n. split; [by right|done].
Qed.

Lemma loopEvents_WriteBack hasPre hasPost c names e :
  WriteBack e ∈ loopEvents hasPre hasPost c names → ∃ name, name ∈ names ∧ e = c name.
Proof.
  intros Hin. pose proof (loopEvents_callOf hasPre hasPost c names) as Hall.
  rewrite Forall_forall in Hall. apply (Hall _ Hin).
Qed.







Section order.
Context {Document Sink World : Type}.
Context {Target Param Dependency Service : Type}.
Context {MetadataRest StackRest ServicesRest : Type}.
Context `{!Inhabited Target, !Inhabited Param,
          !Inhabited Dependency, !Inhabited Service}.

Local Abbreviation TheVisitor :=
  (@Visitor Document Sink World Target Param Dependency
     Service MetadataRest StackRest ServicesRest).
Local Abbreviation TheInOrderVisitor :=
  (@inOrderVisitor Document Sink World Target Param
     Dependency Service MetadataRest StackRest ServicesRest).
Local Abbreviation TheStack :=
  (@Stack Target Param Dependency Service MetadataRest StackRest ServicesRest).
Local Abbreviation TheMetadata := (@Metadata Target MetadataRest).
Local Abbreviation TheServices := (@Services Service ServicesRest).

Implicit Types (ord : MapOrder) (v : TheInOrderVisitor) (doc : Document)
  (w : World) (stack : TheStack) (meta : TheMetadata) (svcs : TheServices).






End order.

(* ===================================================================== *)
(** * The two observers *)
(* ===================================================================== *)

(** Two loops whose visits leave the same record and the same world leave
    the same map and the same world. *)
Lemma forEachName_same_state {World V} `{!Inhabited V} c1 c2
    (visit1 visit2 : string → V → M World V) names (m : gmap string V) w :
  (∀ name x w', value (visit1 name x w') = value (visit2 name x w') ∧
                world (visit1 name x w') = world (visit2 name x w')) →
  value (forEachName c1 visit1 names m w) = value (forEachName c2 visit2 names m w) ∧
  world (forEachName c1 visit1 names m w) = world (forEachName c2 visit2 names m w).
Proof.
  intros Hsame. revert m w.
  induction names as [|name names IH]; intros m w; [done|].
  rewrite !forEachName_cons_value, !forEachName_cons_world.
  destruct (Hsame name (m !!! name) w) as [-> ->]. apply IH.
Qed.

Lemma filter_hookEvents_pre b c :
  filter (λ e, ¬ isPostCall e) (hookEvents Pre b c) = hookEvents Pre b c.
Proof. by destruct b. Qed.

Lemma filter_hookEvents_post b c :
  filter (λ e, ¬ isPostCall e) (hookEvents Post b c) = [].
Proof. by destruct b. Qed.

Lemma filter_loopEvents hasPre hasPost c names :
  filter (λ e, ¬ isPostCall e) (loopEvents hasPre hasPost c names) =
  loopEvents hasPre false c names.
Proof.
  unfold loopEvents. induction names as [|name names IH]; [done|].
  rewrite !bind_cons, filter_app, IH. f_equal.
  unfold entryEvents.
  by rewrite !filter_app, filter_hookEvents_pre, filter_hookEvents_post.
Qed.

Section observers.
Context {Document Sink World : Type}.
Context {Target Param Dependency Service : Type}.
Context {MetadataRest StackRest ServicesRest : Type}.
Context `{!Inhabited Target, !Inhabited Param,
          !Inhabited Dependency, !Inhabited Service}.

Local Abbreviation TheVisitor :=
  (@Visitor Document Sink World Target Param Dependency
     Service MetadataRest StackRest ServicesRest).
Local Abbreviation TheInOrderVisitor :=
  (@inOrderVisitor Document Sink World Target Param
     Dependency Service MetadataRest StackRest ServicesRest).
Local Abbreviation TheStack :=
  (@Stack Target Param Dependency Service MetadataRest StackRest ServicesRest).
Local Abbreviation TheMetadata := (@Metadata Target MetadataRest).
Local Abbreviation TheServices := (@Services Service ServicesRest).

Implicit Types (ord : MapOrder) (v : TheInOrderVisitor) (doc : Document)
  (w : World) (stack : TheStack) (meta : TheMetadata) (svcs : TheServices)
  (o p q : TheVisitor).

(** *** A nil post observer against one that is there and does nothing *)

Section absent_post.
Variable ord : MapOrder.
Variable pre0 : option TheVisitor.
Variable doc : Document.

Let v1 : TheInOrderVisitor := NewInOrderVisitor pre0 None.
Let v2 : TheInOrderVisitor := NewInOrderVisitor pre0 (Some idleVisitor).

Lemma absent_post_visitTargets (m : gmap string Target) w :
  value (visitTargets ord v1 doc m w) = value (visitTargets ord v2 doc m w) ∧
  world (visitTargets ord v1 doc m w) = world (visitTargets ord v2 doc m w).
Proof. by apply forEachName_same_state. Qed.

Lemma absent_post_visitParameters (m : gmap string Param) w :
  value (visitParameters ord v1 doc m w) = value (visitParameters ord v2 doc m w) ∧
  world (visitParameters ord v1 doc m w) = world (visitParameters ord v2 doc m w).
Proof. by apply forEachName_same_state. Qed.

Lemma absent_post_visitDependencies (m : gmap string Dependency) w :
  value (visitDependencies ord v1 doc m w)
    = value (visitDependencies ord v2 doc m w) ∧
  world (visitDependencies ord v1 doc m w)
    = world (visitDependencies ord v2 doc m w).
Proof. by apply forEachName_same_state. Qed.

Lemma absent_post_visitPublic (m : gmap string Service) w :
  value (visitPublic ord v1 doc m w) = value (visitPublic ord v2 doc m w) ∧
  world (visitPublic ord v1 doc m w) = world (visitPublic ord v2 doc m w).
Proof. by apply forEachName_same_state. Qed.

Lemma absent_post_visitPrivate (m : gmap string Service) w :
  value (visitPrivate ord v1 doc m w) = value (visitPrivate ord v2 doc m w) ∧
  world (visitPrivate ord v1 doc m w) = world (visitPrivate ord v2 doc m w).
Proof. by apply forEachName_same_state. Qed.

Lemma absent_post_VisitMetadata kind meta w :
  value (inOrderVisitor_VisitMetadata ord v1 doc kind meta w)
    = value (inOrderVisitor_VisitMetadata ord v2 doc kind meta w) ∧
  world (inOrderVisitor_VisitMetadata ord v1 doc kind meta w)
    = world (inOrderVisitor_VisitMetadata ord v2 doc kind meta w).
Proof.
  unfold inOrderVisitor_VisitMetadata, bind. cbn.
  by destruct (absent_post_visitTargets
    (Targets (value (ifPresent Pre pre0 (CallMetadata kind)
                       (λ o, VisitMetadata o doc kind) meta w)))
    (world (ifPresent Pre pre0 (CallMetadata kind)
              (λ o, VisitMetadata o doc kind) meta w))) as [-> ->].
Qed.

Lemma absent_post_VisitServices svcs w :
  value (inOrderVisitor_VisitServices ord v1 doc svcs w)
    = value (inOrderVisitor_VisitServices ord v2 doc svcs w) ∧
  world (inOrderVisitor_VisitServices ord v1 doc svcs w)
    = world (inOrderVisitor_VisitServices ord v2 doc svcs w).
Proof.
  unfold inOrderVisitor_VisitServices, bind. cbn.
  destruct (absent_post_visitPublic (Public svcs) w) as [-> ->].
  by destruct (absent_post_visitPrivate (Private svcs)
    (world (visitPublic ord v2 doc (Public svcs) w))) as [-> ->].
Qed.

Lemma absent_post_VisitStack stack w :
  value (inOrderVisitor_VisitStack ord v1 doc stack w)
    = value (inOrderVisitor_VisitStack ord v2 doc stack w) ∧
  world (inOrderVisitor_VisitStack ord v1 doc stack w)
    = world (inOrderVisitor_VisitStack ord v2 doc stack w).
Proof.
  unfold inOrderVisitor_VisitStack, bind.
  change (pre v1) with pre0. change (pre v2) with pre0.
  change (post v1) with (@None TheVisitor).
  change (post v2) with (Some (idleVisitor : TheVisitor)).
  cbn [value world ifPresent ret idleVisitor VisitStack fst snd].
  set (s := ifPresent Pre pre0 CallStack (λ o, VisitStack o doc) stack w).
  destruct (absent_post_VisitMetadata "Stack" (StackMetadata (value s))
              (world s)) as [-> ->].
  set (r1 := inOrderVisitor_VisitMetadata ord v2 doc "Stack" _ _).
  destruct (absent_post_visitParameters (Parameters (value s)) (world r1))
    as [-> ->].
  set (r2 := visitParameters ord v2 doc _ _).
  destruct (absent_post_visitDependencies (Dependencies (value s)) (world r2))
    as [-> ->].
  set (r3 := visitDependencies ord v2 doc _ _).
  by destruct (absent_post_VisitServices (StackServices (value s)) (world r3))
    as [-> ->].
Qed.

Lemma absent_post_events stack w :
  events (inOrderVisitor_VisitStack ord v1 doc stack w) =
  filter (λ e, ¬ isPostCall e)
    (events (inOrderVisitor_VisitStack ord v2 doc stack w)).
Proof.
  rewrite !VisitStack_events. cbn zeta.
  rewrite !filter_app, !filter_hookEvents_pre, !filter_hookEvents_post,
    !filter_loopEvents.
  reflexivity.
Qed.

Lemma absent_post_no_call stack w c :
  Invoke Post c ∉ events (inOrderVisitor_VisitStack ord v1 doc stack w).
Proof.
  rewrite absent_post_events. intros [Hn _]%list_elem_of_filter.
  by apply Hn.
Qed.
End absent_post.

(** C7: [Diag] of a composed visitor is the sink of the pre observer when
    there is one, else that of the post observer when there is one, else
    nil; and with a nil post observer [VisitStack] runs to its end without
    a single call into a post observer, leaving the Stack, the observer
    state and the other events as a post observer that does nothing
    would. *)
Theorem C7_Diag_and_absent_post :
  (∀ p (post0 : option TheVisitor),
     inOrderVisitor_Diag (NewInOrderVisitor (Some p) post0) = Diag p) ∧
  (∀ q, inOrderVisitor_Diag (NewInOrderVisitor None (Some q)) = Diag q) ∧
  inOrderVisitor_Diag (NewInOrderVisitor (None : option TheVisitor) None) = None ∧
  (∀ ord (pre0 : option TheVisitor) doc stack w,
     let r := inOrderVisitor_VisitStack ord
                (NewInOrderVisitor pre0 None) doc stack w in
     let r' := inOrderVisitor_VisitStack ord
                 (NewInOrderVisitor pre0 (Some idleVisitor)) doc stack w in
     (∀ c, Invoke Post c ∉ events r) ∧
     value r = value r' ∧
     world r = world r' ∧
     events r = filter (λ e, ¬ isPostCall e) (events r')).
Proof.
  split_and!; try done.
  intros ord pre0 doc stack w r r'. split_and!.
  - intros c. apply absent_post_no_call.
  - apply absent_post_VisitStack.
  - apply absent_post_VisitStack.
  - apply absent_post_events.
Qed.
(** *** Observers that leave the records alone *)

Lemma ifPresent_unchanged {R} h (oo : option TheVisitor) c
    (method : TheVisitor → R → World → R * World) (r : R) w :
  (∀ o, oo = Some o → (method o r w).1 = r) →
  value (ifPresent h oo c method r w) = r.
Proof. destruct oo; cbn; auto. Qed.

Section no_mutation.
Variable v : TheInOrderVisitor.
Hypothesis Hv : Both NoMutation v.

Lemma preStack_unchanged doc stack w : value (preStack v doc stack w) = stack.
Proof.
  apply ifPresent_unchanged. intros o Ho.
  apply same_Stack, (proj1 Hv _ Ho).
Qed.

Lemma preMetadata_unchanged doc kind meta w :
  value (preMetadata v doc kind meta w) = meta.
Proof.
  apply ifPresent_unchanged. intros o Ho.
  apply same_Metadata, (proj1 Hv _ Ho).
Qed.

Lemma VisitTarget_unchanged doc name (x : Target) w :
  value (inOrderVisitor_VisitTarget v doc name x w) = x.
Proof.
  unfold inOrderVisitor_VisitTarget, bind. cbn [value].
  rewrite ifPresent_unchanged.
  - apply ifPresent_unchanged. intros o Ho. apply same_Target, (proj1 Hv _ Ho).
  - intros o Ho. apply same_Target, (proj2 Hv _ Ho).
Qed.

Lemma VisitParameter_unchanged doc name (x : Param) w :
  value (inOrderVisitor_VisitParameter v doc name x w) = x.
Proof.
  unfold inOrderVisitor_VisitParameter, bind. cbn [value].
  rewrite ifPresent_unchanged.
  - apply ifPresent_unchanged. intros o Ho.
    apply same_Parameter, (proj1 Hv _ Ho).
  - intros o Ho. apply same_Parameter, (proj2 Hv _ Ho).
Qed.

Lemma VisitDependency_unchanged doc name (x : Dependency) w :
  value (inOrderVisitor_VisitDependency v doc name x w) = x.
Proof.
  unfold inOrderVisitor_VisitDependency, bind. cbn [value].
  rewrite ifPresent_unchanged.
  - apply ifPresent_unchanged. intros o Ho.
    apply same_Dependency, (proj1 Hv _ Ho).
  - intros o Ho. apply same_Dependency, (proj2 Hv _ Ho).
Qed.

Lemma VisitService_unchanged doc name public (x : Service) w :
  value (inOrderVisitor_VisitService v doc name public x w) = x.
Proof.
  unfold inOrderVisitor_VisitService, bind. cbn [value].
  rewrite ifPresent_unchanged.
  - apply ifPresent_unchanged. intros o Ho.
    apply same_Service, (proj1 Hv _ Ho).
  - intros o Ho. apply same_Service, (proj2 Hv _ Ho).
Qed.

Lemma VisitMetadata_unchanged ord doc kind meta w :
  value (inOrderVisitor_VisitMetadata ord v doc kind meta w) = meta.
Proof.
  unfold inOrderVisitor_VisitMetadata, bind. cbn [value world].
  rewrite ifPresent_unchanged.
  - fold (preMetadata v doc kind meta w).
    rewrite preMetadata_unchanged, visitTargets_eq.
    rewrite forEachName_unchanged
      by auto using VisitTarget_unchanged, @keys_in_dom.
    by destruct meta.
  - intros o Ho. apply same_Metadata, (proj2 Hv _ Ho).
Qed.

Lemma VisitServices_unchanged ord doc svcs w :
  value (inOrderVisitor_VisitServices ord v doc svcs w) = svcs.
Proof.
  unfold inOrderVisitor_VisitServices, bind. cbn [value world ret].
  rewrite visitPublic_eq, visitPrivate_eq.
  rewrite !forEachName_unchanged
    by (try (intros; apply VisitService_unchanged); apply @keys_in_dom).
  by destruct svcs.
Qed.

Lemma VisitStack_unchanged ord doc stack w :
  value (inOrderVisitor_VisitStack ord v doc stack w) = stack.
Proof.
  unfold inOrderVisitor_VisitStack, bind. cbn [value world].
  rewrite ifPresent_unchanged.
  - fold (preStack v doc stack w). rewrite preStack_unchanged.
    rewrite VisitMetadata_unchanged, VisitServices_unchanged.
    rewrite visitParameters_eq, visitDependencies_eq.
    rewrite !forEachName_unchanged
      by auto using VisitParameter_unchanged, VisitDependency_unchanged,
           @keys_in_dom.
    by destruct stack.
  - intros o Ho. apply same_Stack, (proj2 Hv _ Ho).
Qed.

(** The events then depend on the Stack alone. *)
Lemma VisitStack_events_unchanged ord ord' doc stack w w' :
  events (inOrderVisitor_VisitStack ord v doc stack w) =
  events (inOrderVisitor_VisitStack ord' v doc stack w').
Proof.
  rewrite !VisitStack_events. cbn zeta.
  by rewrite !preMetadata_unchanged, !preStack_unchanged.
Qed.
End no_mutation.

(** C6: with observers that mutate nothing, [VisitStack] leaves the whole
    Stack as it was (every store puts back the value that was there), and
    a second run right after the first leaves it the same again and goes
    through the same sequence of calls and stores. *)
Theorem C6_no_mutation_runs_repeat ord1 ord2 v doc stack w :
  Both NoMutation v →
  let r1 := inOrderVisitor_VisitStack ord1 v doc stack w in
  let r2 := inOrderVisitor_VisitStack ord2 v doc (value r1) (world r1) in
  value r1 = stack ∧ value r2 = stack ∧ events r2 = events r1.
Proof.
  intros Hv r1 r2.
  assert (value r1 = stack) as H1 by by apply VisitStack_unchanged.
  split_and!; [done| |].
  - unfold r2. rewrite H1. by apply VisitStack_unchanged.
  - unfold r2. rewrite H1. by apply VisitStack_events_unchanged.
Qed.
(** *** What the loops store, and where *)

Lemma visitTargets_dom ord v doc (m : gmap string Target) w :
  dom (value (visitTargets ord v doc m w)) = dom m.
Proof. rewrite visitTargets_eq. apply forEachName_dom_keys, @keys_in_dom. Qed.

Lemma visitParameters_dom ord v doc (m : gmap string Param) w :
  dom (value (visitParameters ord v doc m w)) = dom m.
Proof. rewrite visitParameters_eq. apply forEachName_dom_keys, @keys_in_dom. Qed.

Lemma visitDependencies_dom ord v doc (m : gmap string Dependency) w :
  dom (value (visitDependencies ord v doc m w)) = dom m.
Proof. rewrite visitDependencies_eq. apply forEachName_dom_keys, @keys_in_dom. Qed.

Lemma visitPublic_dom ord v doc (m : gmap string Service) w :
  dom (value (visitPublic ord v doc m w)) = dom m.
Proof. rewrite visitPublic_eq. apply forEachName_dom_keys, @keys_in_dom. Qed.

Lemma visitPrivate_dom ord v doc (m : gmap string Service) w :
  dom (value (visitPrivate ord v doc m w)) = dom m.
Proof. rewrite visitPrivate_eq. apply forEachName_dom_keys, @keys_in_dom. Qed.

(** [VisitServices] calls no observer on the container, so it keeps both key
    sets whatever the observers are. *)
Lemma VisitServices_dom ord v doc svcs w :
  dom (Public (value (inOrderVisitor_VisitServices ord v doc svcs w)))
    = dom (Public svcs) ∧
  dom (Private (value (inOrderVisitor_VisitServices ord v doc svcs w)))
    = dom (Private svcs).
Proof.
  unfold inOrderVisitor_VisitServices, bind. cbn [value world ret Public Private].
  by rewrite visitPublic_dom, visitPrivate_dom.
Qed.

Lemma ifPresent_keeps {R K} (f : R → K) h (oo : option TheVisitor) c
    (method : TheVisitor → R → World → R * World) (r : R) w :
  (∀ o, oo = Some o → f (method o r w).1 = f r) →
  f (value (ifPresent h oo c method r w)) = f r.
Proof. destruct oo; cbn; auto. Qed.

Section keeps_keys.
Variable ord : MapOrder.
Variable v : TheInOrderVisitor.
Variable doc : Document.
Hypothesis Hv : Both KeepsKeys v.

Lemma preMetadata_dom kind meta w :
  dom (Targets (value (preMetadata v doc kind meta w))) = dom (Targets meta).
Proof.
  apply (ifPresent_keeps (λ x, dom (Targets x))).
  intros o Ho. apply keys_Metadata, (proj1 Hv _ Ho).
Qed.

Lemma VisitMetadata_dom kind meta w :
  dom (Targets (value (inOrderVisitor_VisitMetadata ord v doc kind meta w)))
  = dom (Targets meta).
Proof.
  unfold inOrderVisitor_VisitMetadata, bind. cbn [value world].
  rewrite (ifPresent_keeps (λ x, dom (Targets x)))
    by (intros o Ho; apply keys_Metadata, (proj2 Hv _ Ho)).
  cbn [Targets]. rewrite visitTargets_dom. apply preMetadata_dom.
Qed.

Lemma VisitStack_dom stack w :
  let r := inOrderVisitor_VisitStack ord v doc stack w in
  dom (Targets (StackMetadata (value r))) = dom (Targets (StackMetadata stack)) ∧
  dom (Parameters (value r)) = dom (Parameters stack) ∧
  dom (Dependencies (value r)) = dom (Dependencies stack) ∧
  dom (Public (StackServices (value r))) = dom (Public (StackServices stack)) ∧
  dom (Private (StackServices (value r))) = dom (Private (StackServices stack)).
Proof.
  cbn zeta. unfold inOrderVisitor_VisitStack, bind. cbn [value world].
  fold (preStack v doc stack w). set (s := preStack v doc stack w).
  split_and!.
  - rewrite (ifPresent_keeps (λ x, dom (Targets (StackMetadata x))))
      by (intros o Ho; apply keys_Targets, (proj2 Hv _ Ho)).
    cbn [StackMetadata]. rewrite VisitMetadata_dom.
    apply (ifPresent_keeps (λ x, dom (Targets (StackMetadata x)))).
    intros o Ho. apply keys_Targets, (proj1 Hv _ Ho).
  - rewrite (ifPresent_keeps (λ x, dom (Parameters x)))
      by (intros o Ho; apply keys_Parameters, (proj2 Hv _ Ho)).
    cbn [Parameters]. rewrite visitParameters_dom.
    apply (ifPresent_keeps (λ x, dom (Parameters x))).
    intros o Ho. apply keys_Parameters, (proj1 Hv _ Ho).
  - rewrite (ifPresent_keeps (λ x, dom (Dependencies x)))
      by (intros o Ho; apply keys_Dependencies, (proj2 Hv _ Ho)).
    cbn [Dependencies]. rewrite visitDependencies_dom.
    apply (ifPresent_keeps (λ x, dom (Dependencies x))).
    intros o Ho. apply keys_Dependencies, (proj1 Hv _ Ho).
  - rewrite (ifPresent_keeps (λ x, dom (Public (StackServices x))))
      by (intros o Ho; apply keys_Public, (proj2 Hv _ Ho)).
    cbn [StackServices]. rewrite (proj1 (VisitServices_dom _ _ _ _ _)).
    apply (ifPresent_keeps (λ x, dom (Public (StackServices x)))).
    intros o Ho. apply keys_Public, (proj1 Hv _ Ho).
  - rewrite (ifPresent_keeps (λ x, dom (Private (StackServices x))))
      by (intros o Ho; apply keys_Private, (proj2 Hv _ Ho)).
    cbn [StackServices]. rewrite (proj2 (VisitServices_dom _ _ _ _ _)).
    apply (ifPresent_keeps (λ x, dom (Private (StackServices x)))).
    intros o Ho. apply keys_Private, (proj1 Hv _ Ho).
Qed.

Lemma hookEvents_no_store h b c c' : WriteBack c' ∉ hookEvents h b c.
Proof.
  destruct b; cbn; [|apply not_elem_of_nil].
  by intros ?%list_elem_of_singleton.
Qed.

Lemma VisitStack_stores stack w c :
  WriteBack c ∈ events (inOrderVisitor_VisitStack ord v doc stack w) →
  ExistingKey stack c.
Proof.
  rewrite VisitStack_events. cbn zeta.
  set (s := preStack v doc stack w).
  assert (dom (Targets (StackMetadata (value s)))
            = dom (Targets (StackMetadata stack))) as HT.
  { apply (ifPresent_keeps (λ x, dom (Targets (StackMetadata x)))).
    intros o Ho. apply keys_Targets, (proj1 Hv _ Ho). }
  assert (dom (Parameters (value s)) = dom (Parameters stack)) as HP.
  { apply (ifPresent_keeps (λ x, dom (Parameters x))).
    intros o Ho. apply keys_Parameters, (proj1 Hv _ Ho). }
  assert (dom (Dependencies (value s)) = dom (Dependencies stack)) as HD.
  { apply (ifPresent_keeps (λ x, dom (Dependencies x))).
    intros o Ho. apply keys_Dependencies, (proj1 Hv _ Ho). }
  assert (dom (Public (StackServices (value s)))
            = dom (Public (StackServices stack))) as HPu.
  { apply (ifPresent_keeps (λ x, dom (Public (StackServices x)))).
    intros o Ho. apply keys_Public, (proj1 Hv _ Ho). }
  assert (dom (Private (StackServices (value s)))
            = dom (Private (StackServices stack))) as HPr.
  { apply (ifPresent_keeps (λ x, dom (Private (StackServices x)))).
    intros o Ho. apply keys_Private, (proj1 Hv _ Ho). }
  rewrite !elem_of_app.
  intros [Hin|[[Hin|[Hin|Hin]]|[Hin|[Hin|[[Hin|Hin]|Hin]]]]];
    try (by apply hookEvents_no_store in Hin);
    apply loopEvents_WriteBack in Hin as (name & Hname%keys_in_dom & ->);
    cbn.
  - by rewrite preMetadata_dom, HT in Hname.
  - by rewrite HP in Hname.
  - by rewrite HD in Hname.
  - by rewrite HPu in Hname.
  - by rewrite HPr in Hname.
Qed.
End keeps_keys.

(** C10, with the proviso it needs: when the observers add or remove no
    entry themselves (their [VisitStack] and [VisitMetadata] hand back
    mappings with the key sets they received; a leaf method only ever holds
    one record), a complete traversal leaves the key sets of the five
    mappings as they were, and every store the traversal makes is at a key
    the mapping had before the traversal began. *)
Theorem C10_key_sets_preserved ord v doc stack w :
  Both KeepsKeys v →
  let r := inOrderVisitor_VisitStack ord v doc stack w in
  dom (Targets (StackMetadata (value r))) = dom (Targets (StackMetadata stack)) ∧
  dom (Parameters (value r)) = dom (Parameters stack) ∧
  dom (Dependencies (value r)) = dom (Dependencies stack) ∧
  dom (Public (StackServices (value r))) = dom (Public (StackServices stack)) ∧
  dom (Private (StackServices (value r))) = dom (Private (StackServices stack)) ∧
  (∀ c, WriteBack c ∈ events r → ExistingKey stack c).
Proof.
  intros Hv r.
  destruct (VisitStack_dom ord v doc Hv stack w) as (? & ? & ? & ? & ?).
  split_and!; try done.
  intros c. by apply VisitStack_stores.
Qed.
(** *** Every visited entry is stored back *)

Lemma visitTargets_StoresBack ord v doc :
  StoresBack CallTarget (inOrderVisitor_VisitTarget v doc)
    (visitTargets ord v doc).
Proof. apply StoresBack_intro. intros m. apply visitTargets_eq. Qed.

Lemma visitParameters_StoresBack ord v doc :
  StoresBack CallParameter (inOrderVisitor_VisitParameter v doc)
    (visitParameters ord v doc).
Proof. apply StoresBack_intro. intros m. apply visitParameters_eq. Qed.

Lemma visitDependencies_StoresBack ord v doc :
  StoresBack CallDependency (inOrderVisitor_VisitDependency v doc)
    (visitDependencies ord v doc).
Proof. apply StoresBack_intro. intros m. apply visitDependencies_eq. Qed.

Lemma visitPublic_StoresBack ord v doc :
  StoresBack (λ name, CallService name true)
    (λ name, inOrderVisitor_VisitService v doc name true)
    (visitPublic ord v doc).
Proof. apply StoresBack_intro. intros m. apply visitPublic_eq. Qed.

Lemma visitPrivate_StoresBack ord v doc :
  StoresBack (λ name, CallService name false)
    (λ name, inOrderVisitor_VisitService v doc name false)
    (visitPrivate ord v doc).
Proof. apply StoresBack_intro. intros m. apply visitPrivate_eq. Qed.

(** After the loop, an entry holds what its visit returned when handed the
    value the entry had before. *)
Lemma StoresBack_entry {V} `{!Inhabited V} (c : string → Call)
    (visit : string → V → M World V)
    (loop : gmap string V → M World (gmap string V))
    (m : gmap string V) w k x :
  StoresBack c visit loop → m !! k = Some x →
  ∃ w', value (loop m w) !! k = Some (value (visit k x w')).
Proof.
  intros Hsb Hk.
  assert (k ∈ ascendingKeys m) as [i Hi]%list_elem_of_lookup_1
    by (apply elem_of_ascendingKeys; eauto).
  destruct (Hsb m w i k Hi) as (_ & _ & _ & _ & Hend).
  rewrite (lookup_total_correct _ _ _ Hk) in Hend. eauto.
Qed.

Section keeps_mappings.
Variable ord : MapOrder.
Variable v : TheInOrderVisitor.
Variable doc : Document.
Hypothesis Hv : Both KeepsMappings v.

Lemma VisitMetadata_targets kind meta w :
  ∃ w', Targets (value (inOrderVisitor_VisitMetadata ord v doc kind meta w))
        = value (visitTargets ord v doc (Targets meta) w').
Proof.
  unfold inOrderVisitor_VisitMetadata, bind. cbn [value world].
  rewrite (ifPresent_keeps Targets)
    by (intros o Ho; apply maps_Metadata, (proj2 Hv _ Ho)).
  cbn [Targets].
  rewrite (ifPresent_keeps Targets _ (pre v))
    by (intros o Ho; apply maps_Metadata, (proj1 Hv _ Ho)).
  eauto.
Qed.

Lemma VisitStack_mappings stack w :
  let r := inOrderVisitor_VisitStack ord v doc stack w in
  (∃ w', Targets (StackMetadata (value r))
         = value (visitTargets ord v doc (Targets (StackMetadata stack)) w')) ∧
  (∃ w', Parameters (value r)
         = value (visitParameters ord v doc (Parameters stack) w')) ∧
  (∃ w', Dependencies (value r)
         = value (visitDependencies ord v doc (Dependencies stack) w')) ∧
  (∃ w', Public (StackServices (value r))
         = value (visitPublic ord v doc (Public (StackServices stack)) w')) ∧
  (∃ w', Private (StackServices (value r))
         = value (visitPrivate ord v doc (Private (StackServices stack)) w')).
Proof.
  cbn zeta. unfold inOrderVisitor_VisitStack, bind. cbn [value world].
  fold (preStack v doc stack w). set (s := preStack v doc stack w).
  split_and!.
  - rewrite (ifPresent_keeps (λ x, Targets (StackMetadata x)))
      by (intros o Ho; apply maps_Targets, (proj2 Hv _ Ho)).
    cbn [StackMetadata].
    destruct (VisitMetadata_targets "Stack" (StackMetadata (value s)) (world s))
      as [w' ->].
    exists w'. unfold s, preStack.
    by rewrite (ifPresent_keeps (λ x, Targets (StackMetadata x)) _ (pre v))
      by (intros o Ho; apply maps_Targets, (proj1 Hv _ Ho)).
  - rewrite (ifPresent_keeps Parameters)
      by (intros o Ho; apply maps_Parameters, (proj2 Hv _ Ho)).
    cbn [Parameters]. eexists. unfold s, preStack.
    by rewrite (ifPresent_keeps Parameters _ (pre v))
      by (intros o Ho; apply maps_Parameters, (proj1 Hv _ Ho)).
  - rewrite (ifPresent_keeps Dependencies)
      by (intros o Ho; apply maps_Dependencies, (proj2 Hv _ Ho)).
    cbn [Dependencies]. eexists. unfold s, preStack.
    by rewrite (ifPresent_keeps Dependencies _ (pre v))
      by (intros o Ho; apply maps_Dependencies, (proj1 Hv _ Ho)).
  - rewrite (ifPresent_keeps (λ x, Public (StackServices x)))
      by (intros o Ho; apply maps_Public, (proj2 Hv _ Ho)).
    cbn [StackServices]. unfold inOrderVisitor_VisitServices, bind.
    cbn [value world ret Public]. eexists. unfold s, preStack.
    by rewrite (ifPresent_keeps (λ x, Public (StackServices x)) _ (pre v))
      by (intros o Ho; apply maps_Public, (proj1 Hv _ Ho)).
  - rewrite (ifPresent_keeps (λ x, Private (StackServices x)))
      by (intros o Ho; apply maps_Private, (proj2 Hv _ Ho)).
    cbn [StackServices]. unfold inOrderVisitor_VisitServices, bind.
    cbn [value world ret Private]. eexists. unfold s, preStack.
    by rewrite (ifPresent_keeps (λ x, Private (StackServices x)) _ (pre v))
      by (intros o Ho; apply maps_Private, (proj1 Hv _ Ho)).
Qed.
End keeps_mappings.

(** C4: in each of the five loops, the visit of the [i]-th key is handed
    the value the mapping held at that key, and the turn ends with what the
    visit returned stored at that same key, before the next key is looked
    at; the loop ends with that value still there.  Hence, when entries are
    changed in their own visits only, every entry of the Stack [VisitStack]
    returns holds what its visit returned when handed the entry's value. *)
Theorem C4_visited_value_stored_back ord v doc :
  StoresBack CallTarget (inOrderVisitor_VisitTarget v doc)
    (visitTargets ord v doc) ∧
  StoresBack CallParameter (inOrderVisitor_VisitParameter v doc)
    (visitParameters ord v doc) ∧
  StoresBack CallDependency (inOrderVisitor_VisitDependency v doc)
    (visitDependencies ord v doc) ∧
  StoresBack (λ name, CallService name true)
    (λ name, inOrderVisitor_VisitService v doc name true)
    (visitPublic ord v doc) ∧
  StoresBack (λ name, CallService name false)
    (λ name, inOrderVisitor_VisitService v doc name false)
    (visitPrivate ord v doc) ∧
  (Both KeepsMappings v → ∀ stack w,
     let r := inOrderVisitor_VisitStack ord v doc stack w in
     (∀ k x, Targets (StackMetadata stack) !! k = Some x →
        ∃ w', Targets (StackMetadata (value r)) !! k
              = Some (value (inOrderVisitor_VisitTarget v doc k x w'))) ∧
     (∀ k x, Parameters stack !! k = Some x →
        ∃ w', Parameters (value r) !! k
              = Some (value (inOrderVisitor_VisitParameter v doc k x w'))) ∧
     (∀ k x, Dependencies stack !! k = Some x →
        ∃ w', Dependencies (value r) !! k
              = Some (value (inOrderVisitor_VisitDependency v doc k x w'))) ∧
     (∀ k x, Public (StackServices stack) !! k = Some x →
        ∃ w', Public (StackServices (value r)) !! k
              = Some (value (inOrderVisitor_VisitService v doc k true x w'))) ∧
     (∀ k x, Private (StackServices stack) !! k = Some x →
        ∃ w', Private (StackServices (value r)) !! k
              = Some (value (inOrderVisitor_VisitService v doc k false x w')))).
Proof.
  split_and!.
  - apply visitTargets_StoresBack.
  - apply visitParameters_StoresBack.
  - apply visitDependencies_StoresBack.
  - apply visitPublic_StoresBack.
  - apply visitPrivate_StoresBack.
  - intros Hv stack w r.
    destruct (VisitStack_mappings ord v doc Hv stack w)
      as ([w1 H1] & [w2 H2] & [w3 H3] & [w4 H4] & [w5 H5]).
    fold r in H1, H2, H3, H4, H5.
    split_and!; intros k x Hk.
    + rewrite H1.
      apply (StoresBack_entry CallTarget (inOrderVisitor_VisitTarget v doc));
        auto using visitTargets_StoresBack.
    + rewrite H2.
      apply (StoresBack_entry CallParameter (inOrderVisitor_VisitParameter v doc));
        auto using visitParameters_StoresBack.
    + rewrite H3.
      apply (StoresBack_entry CallDependency
               (inOrderVisitor_VisitDependency v doc));
        auto using visitDependencies_StoresBack.
    + rewrite H4.
      apply (StoresBack_entry (λ name, CallService name true)
               (λ name, inOrderVisitor_VisitService v doc name true));
        auto using visitPublic_StoresBack.
    + rewrite H5.
      apply (StoresBack_entry (λ name, CallService name false)
               (λ name, inOrderVisitor_VisitService v doc name false));
        auto using visitPrivate_StoresBack.
Qed.

(** *** Both observers on one record *)

Lemma StoresAfterBoth_intro {V} `{!Inhabited V} (c : string → Call)
    (visit : string → V → M World V)
    (f g : string → V → World → V * World)
    (loop : gmap string V → M World (gmap string V)) :
  StoresBack c visit loop →
  (∀ name x w, value (visit name x w) = (preThenPost (f name) (g name) x w).1) →
  StoresAfterBoth c visit f g loop.
Proof.
  intros Hsb Hvisit m w i k Hi before.
  destruct (Hsb m w i k Hi) as (_ & _ & _ & _ & ->).
  by rewrite Hvisit.
Qed.

(** C9: in a leaf visit with both observers, the post observer is handed
    the record as the pre observer left it (and the state the pre observer
    left), and the result of the visit is what the post observer leaves;
    in each loop it is this result, taken after both calls, that the
    mapping holds at the key afterwards. *)
Theorem C9_leaf_record_shared_by_both ord p q doc :
  let v := NewInOrderVisitor (Some p) (Some q) in
  (∀ name x w,
     let b := preThenPost (VisitParameter p doc name)
                (VisitParameter q doc name) x w in
     inOrderVisitor_VisitParameter v doc name x w =
     {| value := b.1; world := b.2;
        events := [Invoke Pre (CallParameter name);
                   Invoke Post (CallParameter name)] |}) ∧
  (∀ name x w,
     let b := preThenPost (VisitDependency p doc name)
                (VisitDependency q doc name) x w in
     inOrderVisitor_VisitDependency v doc name x w =
     {| value := b.1; world := b.2;
        events := [Invoke Pre (CallDependency name);
                   Invoke Post (CallDependency name)] |}) ∧
  (∀ name public x w,
     let b := preThenPost (VisitService p doc name public)
                (VisitService q doc name public) x w in
     inOrderVisitor_VisitService v doc name public x w =
     {| value := b.1; world := b.2;
        events := [Invoke Pre (CallService name public);
                   Invoke Post (CallService name public)] |}) ∧
  (∀ name x w,
     let b := preThenPost (VisitTarget p doc name)
                (VisitTarget q doc name) x w in
     inOrderVisitor_VisitTarget v doc name x w =
     {| value := b.1; world := b.2;
        events := [Invoke Pre (CallTarget name);
                   Invoke Post (CallTarget name)] |}) ∧
  StoresAfterBoth CallTarget (inOrderVisitor_VisitTarget v doc)
    (VisitTarget p doc) (VisitTarget q doc) (visitTargets ord v doc) ∧
  StoresAfterBoth CallParameter (inOrderVisitor_VisitParameter v doc)
    (VisitParameter p doc) (VisitParameter q doc) (visitParameters ord v doc) ∧
  StoresAfterBoth CallDependency (inOrderVisitor_VisitDependency v doc)
    (VisitDependency p doc) (VisitDependency q doc)
    (visitDependencies ord v doc) ∧
  StoresAfterBoth (λ name, CallService name true)
    (λ name, inOrderVisitor_VisitService v doc name true)
    (λ name, VisitService p doc name true)
    (λ name, VisitService q doc name true) (visitPublic ord v doc) ∧
  StoresAfterBoth (λ name, CallService name false)
    (λ name, inOrderVisitor_VisitService v doc name false)
    (λ name, VisitService p doc name false)
    (λ name, VisitService q doc name false) (visitPrivate ord v doc) ∧
  (∀ c, entryEvents (present (pre v)) (present (post v)) c =
        [Invoke Pre c; Invoke Post c; WriteBack c]).
Proof.
  intros v. split_and!; try done.
  - apply StoresAfterBoth_intro; [apply visitTargets_StoresBack|done].
  - apply StoresAfterBoth_intro; [apply visitParameters_StoresBack|done].
  - apply StoresAfterBoth_intro; [apply visitDependencies_StoresBack|done].
  - apply StoresAfterBoth_intro; [apply visitPublic_StoresBack|done].
  - apply StoresAfterBoth_intro; [apply visitPrivate_StoresBack|done].
Qed.
End observers.

(* ===================================================================== *)
(** * [VisitServices] and the observers *)
(* ===================================================================== *)

Section services_hook.
Context {Document Sink World : Type}.
Context {Target Param Dependency Service : Type}.
Context {MetadataRest StackRest ServicesRest : Type}.
Context `{!Inhabited Target, !Inhabited Param,
          !Inhabited Dependency, !Inhabited Service}.

Local Abbreviation TheInOrderVisitor :=
  (@inOrderVisitor Document Sink World Target Param
     Dependency Service MetadataRest StackRest ServicesRest).

(** Whatever the observers and the Services are, [VisitServices] of the
    composed visitor calls [VisitServices] of neither observer. *)
Lemma VisitServices_never_forwarded ord (v : TheInOrderVisitor) doc svcs w h :
  Invoke h CallServices ∉ events (inOrderVisitor_VisitServices ord v doc svcs w).
Proof.
  rewrite VisitServices_events.
  intros [Hin|Hin]%elem_of_app;
    apply (proj1 (Forall_forall _ _) (loopEvents_callOf _ _ _ _)) in Hin;
    by destruct Hin as (? & _ & ?).
Qed.

(** Nor does [VisitStack]. *)
Lemma VisitStack_never_VisitServices ord (v : TheInOrderVisitor) doc stack w h :
  Invoke h CallServices ∉ events (inOrderVisitor_VisitStack ord v doc stack w).
Proof.
  rewrite VisitStack_events. cbn zeta. rewrite !elem_of_app.
  assert (∀ h' b c, c ≠ CallServices → Invoke h CallServices ∉ hookEvents h' b c)
    as Hhook.
  { intros h' b c Hc Hin.
    pose proof (hookEvents_callOf h' b c) as Hall.
    rewrite Forall_forall in Hall. by specialize (Hall _ Hin). }
  assert (∀ c names, (∀ name, c name ≠ CallServices) →
            Invoke h CallServices
            ∉ loopEvents (present (pre v)) (present (post v)) c names) as Hloop.
  { intros c names Hc Hin.
    pose proof (loopEvents_callOf (present (pre v)) (present (post v)) c names)
      as Hall.
    rewrite Forall_forall in Hall.
    destruct (Hall _ Hin) as (name & _ & Heq). by destruct (Hc name). }
  intros [Hin|[[Hin|[Hin|Hin]]|[Hin|[Hin|[[Hin|Hin]|Hin]]]]];
    first [ by apply Hhook in Hin | by apply Hloop in Hin ].
Qed.
End services_hook.

(** C1, at a Services value with a public service z and a private service a
    and two observers that log every call: [VisitServices] of the composed
    visitor visits the two services and returns; [VisitServices] of the pre
    observer and of the post observer are never called (no event, no line in
    the log), unlike [VisitStack] and [VisitMetadata], whose calls enclose the
    visits of the children. *)
Theorem C1_VisitServices_not_forwarded :
  let v := NewInOrderVisitor (Some (sample.recorder "pre "))
             (Some (sample.recorder "post ")) in
  let r := inOrderVisitor_VisitServices forwardOrder v tt sample.services [] in
  let r' := inOrderVisitor_VisitMetadata forwardOrder v tt "Stack"
              (StackMetadata sample.stack) [] in
  events r =
    [ Invoke Pre (CallService "z" true); Invoke Post (CallService "z" true);
      WriteBack (CallService "z" true);
      Invoke Pre (CallService "a" false); Invoke Post (CallService "a" false);
      WriteBack (CallService "a" false) ] ∧
  world r =
    [ "pre service z"; "post service z"; "pre service a"; "post service a" ] ∧
  (Invoke Pre CallServices ∉ events r) ∧
  (Invoke Post CallServices ∉ events r) ∧
  world r' =
    [ "pre metadata Stack"; "pre target t1"; "post target t1";
      "pre target t2"; "post target t2"; "post metadata Stack" ].
Proof.
  intros v r r'. split_and!.
  - by vm_compute.
  - by vm_compute.
  - apply VisitServices_never_forwarded.
  - apply VisitServices_never_forwarded.
  - by vm_compute.
Qed.

(* ===================================================================== *)
(** * The statements at the sample Stack *)
(* ===================================================================== *)

Lemma recorder_NoMutation tag : NoMutation (sample.recorder tag).
Proof. by constructor. Defined.

Lemma bumper_KeepsKeys tag n : KeepsKeys (sample.bumper tag n).
Proof. by constructor. Defined.

Lemma bumper_KeepsMappings tag n : KeepsMappings (sample.bumper tag n).
Proof. by constructor. Defined.

Lemma doubler_KeepsMappings tag : KeepsMappings (sample.doubler tag).
Proof. by constructor. Defined.

(** The log of two recording observers over the sample Stack. *)
Example sample_log :
  world (inOrderVisitor_VisitStack backwardOrder
           (NewInOrderVisitor (Some (sample.recorder "pre "))
              (Some (sample.recorder "post "))) tt sample.stack []) =
  [ "pre stack"; "pre metadata Stack";
    "pre target t1"; "post target t1"; "pre target t2"; "post target t2";
    "post metadata Stack";
    "pre parameter a"; "post parameter a"; "pre parameter b"; "post parameter b";
    "pre parameter c"; "post parameter c";
    "pre dependency d"; "post dependency d";
    "pre service z"; "post service z"; "pre service a"; "post service a";
    "post stack" ].
Proof. by vm_compute. Qed.



Lemma C4_at_sample_stack :
  let v := NewInOrderVisitor (Some (sample.bumper "pre " 1))
             (Some (sample.doubler "post ")) in
  let r := inOrderVisitor_VisitStack forwardOrder v tt sample.stack [] in
  Both KeepsMappings v ∧
  Parameters (value r) = {[ "a" := 42; "b" := 22; "c" := 62 ]} ∧
  ∃ w', Parameters (value r) !! "a"
        = Some (value (inOrderVisitor_VisitParameter v tt "a" 20 w')).
Proof.
  intros v r.
  assert (Both KeepsMappings v) as Hv.
  { split; intros o [= <-].
    - apply bumper_KeepsMappings.
    - apply doubler_KeepsMappings. }
  split_and!; [exact Hv|by vm_compute|].
  exact (proj1 (proj2 ((proj2 (proj2 (proj2 (proj2 (proj2
    (C4_visited_value_stored_back forwardOrder v tt))))) Hv sample.stack [])))
    "a" 20 eq_refl).
Defined.

Lemma C6_at_sample_stack :
  let v := NewInOrderVisitor (Some (sample.recorder "pre "))
             (Some (sample.recorder "post ")) in
  let r1 := inOrderVisitor_VisitStack forwardOrder v tt sample.stack [] in
  let r2 := inOrderVisitor_VisitStack backwardOrder v tt (value r1) (world r1) in
  Both NoMutation v ∧
  value r1 = sample.stack ∧ value r2 = sample.stack ∧ events r2 = events r1.
Proof.
  intros v r1 r2.
  assert (Both NoMutation v) as Hv
    by (split; intros o [= <-]; apply recorder_NoMutation).
  split; [exact Hv|].
  exact (C6_no_mutation_runs_repeat forwardOrder backwardOrder v tt
           sample.stack [] Hv).
Defined.

Lemma C10_at_sample_stack :
  let v := NewInOrderVisitor (Some (sample.bumper "pre " 1))
             (Some (sample.bumper "post " 2)) in
  let r := inOrderVisitor_VisitStack forwardOrder v tt sample.stack [] in
  Both KeepsKeys v ∧
  Parameters (value r) = {[ "a" := 23; "b" := 13; "c" := 33 ]} ∧
  dom (Parameters (value r)) = dom (Parameters sample.stack) ∧
  dom (Public (StackServices (value r))) = {[ "z" ]}.
Proof.
  intros v r.
  assert (Both KeepsKeys v) as Hv
    by (split; intros o [= <-]; apply bumper_KeepsKeys).
  pose proof (C10_key_sets_preserved forwardOrder v tt sample.stack [] Hv)
    as (_ & HP & _ & HPu & _).
  split_and!; [exact Hv|by vm_compute|exact HP|].
  etrans; [exact HPu|by vm_compute].
Defined.

(* ===================================================================== *)
(** * More on the cloud architecture tables *)
(* ===================================================================== *)

Lemma ArchNames_lookup_unknown (a : Z) :
  a ∉ clouds.archs → clouds.ArchNames !! a = None.
Proof.
  unfold clouds.archs. rewrite !not_elem_of_cons. intros (? & ? & ? & ? & ? & _).
  unfold clouds.ArchNames. cbn [list_to_map foldr fst snd].
  by rewrite !lookup_insert_ne, lookup_empty.
Qed.

Lemma ArchMap_lookup_unknown (n : string) :
  n ∉ clouds.names → clouds.ArchMap !! n = None.
Proof.
  unfold clouds.names. rewrite !not_elem_of_cons. intros (? & ? & ? & ? & ? & _).
  unfold clouds.ArchMap. cbn [list_to_map foldr fst snd].
  by rewrite !lookup_insert_ne, lookup_empty.
Qed.

Lemma elem_of_archs (a : Z) :
  a ∈ clouds.archs →
  a = clouds.NoArch ∨ a = clouds.AWSArch ∨ a = clouds.GCPArch
  ∨ a = clouds.AzureArch ∨ a = clouds.VMWareArch.
Proof.
  unfold clouds.archs. rewrite !elem_of_cons, elem_of_nil. tauto.
Qed.

Lemma elem_of_names (n : string) :
  n ∈ clouds.names →
  n = clouds.noArch ∨ n = clouds.awsArch ∨ n = clouds.gcpArch
  ∨ n = clouds.azureArch ∨ n = clouds.vmwareArch.
Proof.
  unfold clouds.names. rewrite !elem_of_cons, elem_of_nil. tauto.
Qed.

(** An [Arch] is an [int]: any number can be looked up in [ArchNames].  A
    number that is none of the five constants is not a key: the index
    expression gives the empty name, which [ArchMap] takes to [NoArch].  So
    the name of an architecture leads back to it exactly for the five
    constants. *)
Theorem Arch_round_trip_exactly_on_constants (a : Z) :
  (a ∉ clouds.archs →
     clouds.ArchNames !! a = None ∧
     clouds.ArchNames_index a = clouds.noArch ∧
     clouds.ArchMap_index (clouds.ArchNames_index a) = clouds.NoArch) ∧
  (clouds.ArchMap_index (clouds.ArchNames_index a) = a ↔ a ∈ clouds.archs).
Proof.
  assert (a ∉ clouds.archs →
          clouds.ArchNames !! a = None ∧
          clouds.ArchNames_index a = clouds.noArch ∧
          clouds.ArchMap_index (clouds.ArchNames_index a) = clouds.NoArch) as Hun.
  { intros Hn. pose proof (ArchNames_lookup_unknown a Hn) as Hl.
    unfold clouds.ArchNames_index, clouds.Arch. rewrite Hl.
    split_and!; reflexivity. }
  split; [exact Hun|]. split.
  - intros Hrt. destruct (decide (a ∈ clouds.archs)) as [|Hn]; [done|].
    destruct (Hun Hn) as (_ & _ & Hz). rewrite Hz in Hrt. subst a.
    destruct Hn. unfold clouds.archs. by left.
  - intros Hin. by destruct (elem_of_archs a Hin) as [->|[->|[->|[->| ->]]]].
Qed.

(** A name that is none of the five names is not a key of [ArchMap]: the
    index expression gives [NoArch], as it does for the empty name, and only
    the two-valued lookup tells the two apart.  The architecture of a name
    leads back to the name exactly for the five names. *)
Theorem ArchMap_unknown_name_is_NoArch (n : string) :
  (n ∉ clouds.names →
     clouds.ArchMap !! n = None ∧
     clouds.ArchMap_index n = clouds.NoArch ∧
     clouds.ArchMap_index n = clouds.ArchMap_index clouds.noArch ∧
     clouds.ArchMap !! clouds.noArch = Some clouds.NoArch) ∧
  (clouds.ArchNames_index (clouds.ArchMap_index n) = n ↔ n ∈ clouds.names).
Proof.
  assert (n ∉ clouds.names →
          clouds.ArchMap !! n = None ∧ clouds.ArchMap_index n = clouds.NoArch)
    as Hun.
  { intros Hn. pose proof (ArchMap_lookup_unknown n Hn) as Hl.
    unfold clouds.ArchMap_index, clouds.Arch. rewrite Hl. by split. }
  split.
  - intros Hn. destruct (Hun Hn) as [Hl Hz].
    split_and!; [exact Hl|exact Hz|by rewrite Hz|reflexivity].
  - split.
    + intros Hrt. destruct (decide (n ∈ clouds.names)) as [|Hn]; [done|].
      destruct (Hun Hn) as [_ Hz]. rewrite Hz in Hrt.
      destruct Hn. rewrite <-Hrt. by left.
    + intros Hin. by destruct (elem_of_names n Hin) as [->|[->|[->|[->| ->]]]].
Qed.

(** Both tables are one-to-one: two names with the same entry in [ArchMap]
    are the same name, and two architectures with the same entry in
    [ArchNames] are the same architecture. *)
Theorem Arch_tables_injective :
  (∀ n1 n2 a, clouds.ArchMap !! n1 = Some a → clouds.ArchMap !! n2 = Some a →
     n1 = n2) ∧
  (∀ a1 a2 n, clouds.ArchNames !! a1 = Some n → clouds.ArchNames !! a2 = Some n →
     a1 = a2).
Proof.
  split.
  - intros n1 n2 a H1 H2.
    assert (∀ n (b : Z), clouds.ArchMap !! n = Some b →
              clouds.ArchNames_index b = n) as Hinv.
    { intros n b Hl.
      destruct (decide (n ∈ clouds.names)) as [Hin|Hn].
      - destruct (elem_of_names n Hin) as [->|[->|[->|[->| ->]]]];
          vm_compute in Hl; by injection Hl as <-.
      - by rewrite (ArchMap_lookup_unknown n Hn) in Hl. }
    by rewrite <-(Hinv _ _ H1), <-(Hinv _ _ H2).
  - intros a1 a2 n H1 H2.
    assert (∀ (a : Z) m, clouds.ArchNames !! a = Some m →
              clouds.ArchMap_index m = a) as Hinv.
    { intros a m Hl.
      destruct (decide (a ∈ clouds.archs)) as [Hin|Hn].
      - destruct (elem_of_archs a Hin) as [->|[->|[->|[->| ->]]]];
          vm_compute in Hl; by injection Hl as <-.
      - by rewrite (ArchNames_lookup_unknown a Hn) in Hl. }
    by rewrite <-(Hinv _ _ H1), <-(Hinv _ _ H2).
Qed.

(* ===================================================================== *)
(** * Observers that rewrite records *)
(* ===================================================================== *)

Lemma mapEntries_lookup {V} (g : string → V → V) (m : gmap string V) k :
  mapEntries g m !! k = g k <$> m !! k.
Proof. unfold mapEntries. rewrite map_lookup_imap. by destruct (m !! k). Qed.

Lemma mapEntries_compose {V} (g1 g2 : string → V → V) (m : gmap string V) :
  mapEntries g2 (mapEntries g1 m) = mapEntries (λ k x, g2 k (g1 k x)) m.
Proof.
  apply map_eq. intros k. rewrite !mapEntries_lookup. by destruct (m !! k).
Qed.

Lemma mapEntries_ext {V} (g1 g2 : string → V → V) (m : gmap string V) :
  (∀ k x, m !! k = Some x → g1 k x = g2 k x) → mapEntries g1 m = mapEntries g2 m.
Proof.
  intros Hg. apply map_eq. intros k. rewrite !mapEntries_lookup.
  destruct (m !! k) as [x|] eqn:Hk; [|done]. cbn. by rewrite (Hg k x).
Qed.

Lemma mapEntries_dom {V} (g : string → V → V) (m : gmap string V) :
  dom (mapEntries g m) = dom m.
Proof.
  apply set_eq. intros k. rewrite !elem_of_dom, mapEntries_lookup.
  by rewrite fmap_is_Some.
Qed.

(** A loop whose visit rewrites a record by [g], whatever the state, applies
    [g] to every entry. *)
Lemma forEachName_mapEntries {World V} `{!Inhabited V} (c : string → Call)
    (visit : string → V → M World V) (g : string → V → V)
    (m : gmap string V) (w : World) :
  (∀ name x w', value (visit name x w') = g name x) →
  value (forEachName c visit (ascendingKeys m) m w) = mapEntries g m.
Proof.
  intros Hg. apply map_eq. intros k. rewrite mapEntries_lookup.
  destruct (m !! k) as [x|] eqn:Hk.
  - assert (k ∈ ascendingKeys m) as [i Hi]%list_elem_of_lookup_1
      by (apply elem_of_ascendingKeys; eauto).
    destruct (forEachName_turn c visit (ascendingKeys m) m w i k
                (ascendingKeys_NoDup m) Hi) as (_ & _ & _ & ->).
    by rewrite Hg, (lookup_total_correct _ _ _ Hk).
  - rewrite forEachName_lookup_other; [done|].
    rewrite elem_of_ascendingKeys, Hk. by intros [? ?].
Qed.

Section rewriting_facts.
Context {Document Sink World : Type}.
Context {Target Param Dependency Service : Type}.
Context {MetadataRest StackRest ServicesRest : Type}.
Context `{!Inhabited Target, !Inhabited Param,
          !Inhabited Dependency, !Inhabited Service}.

Local Abbreviation TheVisitor :=
  (@Visitor Document Sink World Target Param Dependency
     Service MetadataRest StackRest ServicesRest).
Local Abbreviation TheInOrderVisitor :=
  (@inOrderVisitor Document Sink World Target Param
     Dependency Service MetadataRest StackRest ServicesRest).
Local Abbreviation TheStack :=
  (@Stack Target Param Dependency Service MetadataRest StackRest ServicesRest).
Local Abbreviation TheMetadata := (@Metadata Target MetadataRest).
Local Abbreviation TheServices := (@Services Service ServicesRest).

Implicit Types (ord : MapOrder) (v : TheInOrderVisitor) (doc : Document)
  (w : World) (stack : TheStack) (meta : TheMetadata) (svcs : TheServices)
  (o p q : TheVisitor).

Lemma ifPresent_recordOf {R} h (oo : option TheVisitor) c
    (method : TheVisitor → R → World → R * World) (r : R) w w0 :
  (∀ o, oo = Some o → (method o r w).1 = (method o r w0).1) →
  value (ifPresent h oo c method r w) = recordOf oo method w0 r.
Proof. destruct oo; cbn; auto. Qed.

Section world_blind.
Variable v : TheInOrderVisitor.
Variable w0 : World.
Hypothesis Hv : Both WorldBlind v.

Lemma VisitTarget_leafOf doc name (x : Target) w :
  value (inOrderVisitor_VisitTarget v doc name x w)
  = leafOf v w0 (λ o, VisitTarget o doc) name x.
Proof.
  unfold inOrderVisitor_VisitTarget, bind, leafOf. cbn [value world].
  rewrite (ifPresent_recordOf Post _ _ _ _ _ w0)
    by (intros o Ho; apply blind_Target, (proj2 Hv _ Ho)).
  f_equal. apply ifPresent_recordOf.
  intros o Ho. apply blind_Target, (proj1 Hv _ Ho).
Qed.

Lemma VisitParameter_leafOf doc name (x : Param) w :
  value (inOrderVisitor_VisitParameter v doc name x w)
  = leafOf v w0 (λ o, VisitParameter o doc) name x.
Proof.
  unfold inOrderVisitor_VisitParameter, bind, leafOf. cbn [value world].
  rewrite (ifPresent_recordOf Post _ _ _ _ _ w0)
    by (intros o Ho; apply blind_Parameter, (proj2 Hv _ Ho)).
  f_equal. apply ifPresent_recordOf.
  intros o Ho. apply blind_Parameter, (proj1 Hv _ Ho).
Qed.

Lemma VisitDependency_leafOf doc name (x : Dependency) w :
  value (inOrderVisitor_VisitDependency v doc name x w)
  = leafOf v w0 (λ o, VisitDependency o doc) name x.
Proof.
  unfold inOrderVisitor_VisitDependency, bind, leafOf. cbn [value world].
  rewrite (ifPresent_recordOf Post _ _ _ _ _ w0)
    by (intros o Ho; apply blind_Dependency, (proj2 Hv _ Ho)).
  f_equal. apply ifPresent_recordOf.
  intros o Ho. apply blind_Dependency, (proj1 Hv _ Ho).
Qed.

Lemma VisitService_leafOf doc name public (x : Service) w :
  value (inOrderVisitor_VisitService v doc name public x w)
  = leafOf v w0 (λ o name', VisitService o doc name' public) name x.
Proof.
  unfold inOrderVisitor_VisitService, bind, leafOf. cbn [value world].
  rewrite (ifPresent_recordOf Post _ _ _ _ _ w0)
    by (intros o Ho; apply blind_Service, (proj2 Hv _ Ho)).
  f_equal. apply ifPresent_recordOf.
  intros o Ho. apply blind_Service, (proj1 Hv _ Ho).
Qed.

Lemma VisitMetadata_rewrite ord doc kind meta w :
  value (inOrderVisitor_VisitMetadata ord v doc kind meta w)
  = rewriteMetadata v w0 doc kind meta.
Proof.
  unfold inOrderVisitor_VisitMetadata, bind, rewriteMetadata. cbn [value world].
  rewrite (ifPresent_recordOf Post _ _ _ _ _ w0)
    by (intros o Ho; apply blind_Metadata, (proj2 Hv _ Ho)).
  rewrite (ifPresent_recordOf Pre _ _ _ _ _ w0)
    by (intros o Ho; apply blind_Metadata, (proj1 Hv _ Ho)).
  rewrite visitTargets_eq.
  rewrite (forEachName_mapEntries _ _ (leafOf v w0 (λ o, VisitTarget o doc)))
    by (intros; apply VisitTarget_leafOf).
  reflexivity.
Qed.

Lemma VisitServices_rewrite ord doc svcs w :
  value (inOrderVisitor_VisitServices ord v doc svcs w)
  = rewriteServices v w0 doc svcs.
Proof.
  unfold inOrderVisitor_VisitServices, bind, rewriteServices.
  cbn [value world ret].
  rewrite visitPublic_eq, visitPrivate_eq.
  rewrite (forEachName_mapEntries _ _
             (leafOf v w0 (λ o name, VisitService o doc name true)))
    by (intros; apply VisitService_leafOf).
  rewrite (forEachName_mapEntries _ _
             (leafOf v w0 (λ o name, VisitService o doc name false)))
    by (intros; apply VisitService_leafOf).
  reflexivity.
Qed.

Lemma VisitStack_rewrite ord doc stack w :
  value (inOrderVisitor_VisitStack ord v doc stack w)
  = rewriteStack v w0 doc stack.
Proof.
  unfold inOrderVisitor_VisitStack, bind, rewriteStack. cbn [value world].
  rewrite (ifPresent_recordOf Post _ _ _ _ _ w0)
    by (intros o Ho; apply blind_Stack, (proj2 Hv _ Ho)).
  rewrite (ifPresent_recordOf Pre _ _ _ _ _ w0)
    by (intros o Ho; apply blind_Stack, (proj1 Hv _ Ho)).
  rewrite VisitMetadata_rewrite, VisitServices_rewrite.
  rewrite visitParameters_eq, visitDependencies_eq.
  rewrite (forEachName_mapEntries _ _ (leafOf v w0 (λ o, VisitParameter o doc)))
    by (intros; apply VisitParameter_leafOf).
  rewrite (forEachName_mapEntries _ _ (leafOf v w0 (λ o, VisitDependency o doc)))
    by (intros; apply VisitDependency_leafOf).
  reflexivity.
Qed.
End world_blind.
(** With observers whose rewriting does not depend on their state, what
    [VisitStack] returns is the Stack with the leaf rewriting (pre, then
    post) applied to every entry of every mapping, between what the two
    observers make of the Metadata and of the Stack themselves: the order of
    the keys and the observer state play no part in it.  In particular an
    entry of the result is the rewriting of the entry under the same key. *)
Theorem VisitStack_rewrites_entry_by_entry ord v doc stack w w0 :
  Both WorldBlind v →
  value (inOrderVisitor_VisitStack ord v doc stack w) = rewriteStack v w0 doc stack ∧
  (∀ svcs w' k,
     Public (value (inOrderVisitor_VisitServices ord v doc svcs w')) !! k
     = leafOf v w0 (λ o name, VisitService o doc name true) k
       <$> Public svcs !! k ∧
     Private (value (inOrderVisitor_VisitServices ord v doc svcs w')) !! k
     = leafOf v w0 (λ o name, VisitService o doc name false) k
       <$> Private svcs !! k).
Proof.
  intros Hv. split.
  - by apply VisitStack_rewrite.
  - intros svcs w' k. rewrite (VisitServices_rewrite v w0 Hv).
    unfold rewriteServices. cbn [Public Private].
    by rewrite !mapEntries_lookup.
Qed.

Lemma Both_pre_only (P : TheVisitor → Prop) (pre0 post0 : option TheVisitor) :
  Both P (NewInOrderVisitor pre0 post0) → Both P (NewInOrderVisitor pre0 None).
Proof. intros [Hp _]. split; [exact Hp|]. by intros o [=]. Qed.

Lemma Both_post_only (P : TheVisitor → Prop) (pre0 post0 : option TheVisitor) :
  Both P (NewInOrderVisitor pre0 post0) → Both P (NewInOrderVisitor None post0).
Proof. intros [_ Hq]. split; [|exact Hq]. by intros o [=]. Qed.

Lemma rewriteStack_split (pre0 post0 : option TheVisitor) w0 doc stack :
  rewriteStack (NewInOrderVisitor pre0 post0) w0 doc stack =
  rewriteStack (NewInOrderVisitor None post0) w0 doc
    (rewriteStack (NewInOrderVisitor pre0 None) w0 doc stack).
Proof.
  unfold rewriteStack, rewriteMetadata, rewriteServices, leafOf.
  cbn [pre post NewInOrderVisitor recordOf StackMetadata Parameters Dependencies
       StackServices stackRest Targets metadataRest Public Private servicesRest].
  by rewrite !mapEntries_compose.
Qed.

(** One walk with a pre and a post observer leaves the Stack that two walks
    leave, the first with the pre observer alone and the second, over the
    result, with the post observer alone, when the rewriting of the
    observers does not depend on their state. *)
Theorem VisitStack_one_walk_for_two ord ord1 ord2
    (pre0 post0 : option TheVisitor) doc stack w :
  Both WorldBlind (NewInOrderVisitor pre0 post0) →
  let r1 := inOrderVisitor_VisitStack ord1 (NewInOrderVisitor pre0 None)
              doc stack w in
  let r2 := inOrderVisitor_VisitStack ord2 (NewInOrderVisitor None post0)
              doc (value r1) (world r1) in
  value (inOrderVisitor_VisitStack ord (NewInOrderVisitor pre0 post0) doc stack w)
  = value r2.
Proof.
  intros Hv r1 r2. unfold r2, r1.
  rewrite (VisitStack_rewrite _ w Hv).
  rewrite (VisitStack_rewrite _ w (Both_post_only _ _ _ Hv)).
  rewrite (VisitStack_rewrite _ w (Both_pre_only _ _ _ Hv)).
  apply rewriteStack_split.
Qed.

(** *** A composed visitor as the observer of another one *)

Lemma inOrderVisitor_Visitor_WorldBlind ordi (vi : TheInOrderVisitor) :
  Both WorldBlind vi → WorldBlind (inOrderVisitor_Visitor ordi vi).
Proof.
  intros Hvi. constructor; intros; unfold inOrderVisitor_Visitor;
    cbn [VisitMetadata VisitStack VisitParameter VisitDependency VisitService
         VisitTarget fst].
  - by rewrite (VisitMetadata_rewrite vi w Hvi), (VisitMetadata_rewrite vi w Hvi).
  - by rewrite (VisitStack_rewrite vi w Hvi), (VisitStack_rewrite vi w Hvi).
  - by rewrite (VisitParameter_leafOf vi w Hvi), (VisitParameter_leafOf vi w Hvi).
  - by rewrite (VisitDependency_leafOf vi w Hvi), (VisitDependency_leafOf vi w Hvi).
  - by rewrite (VisitService_leafOf vi w Hvi), (VisitService_leafOf vi w Hvi).
  - by rewrite (VisitTarget_leafOf vi w Hvi), (VisitTarget_leafOf vi w Hvi).
Qed.

(** A composed visitor handed to [NewInOrderVisitor] as the pre observer of
    a second one walks the Stack on its own when the second one calls its
    [VisitStack], and is then called again for the Metadata and for every
    entry the second one walks over: every parameter, dependency and service
    is rewritten twice, every target three times. *)
Theorem nested_visitor_rewrites_again ord ordi (vi : TheInOrderVisitor)
    doc stack w w0 :
  Both WorldBlind vi →
  let outer := NewInOrderVisitor (Some (inOrderVisitor_Visitor ordi vi)) None in
  let s := rewriteStack vi w0 doc stack in
  let meta := rewriteMetadata vi w0 doc "Stack" (StackMetadata s) in
  value (inOrderVisitor_VisitStack ord outer doc stack w) =
  {| StackMetadata :=
       {| Targets := mapEntries (leafOf vi w0 (λ o, VisitTarget o doc))
                       (Targets meta);
          metadataRest := metadataRest meta |};
     Parameters := mapEntries (leafOf vi w0 (λ o, VisitParameter o doc))
                     (Parameters s);
     Dependencies := mapEntries (leafOf vi w0 (λ o, VisitDependency o doc))
                       (Dependencies s);
     StackServices := rewriteServices vi w0 doc (StackServices s);
     stackRest := stackRest s |}.
Proof.
  intros Hvi outer s meta.
  assert (Both WorldBlind outer) as Ho.
  { split; intros o [= <-]. by apply inOrderVisitor_Visitor_WorldBlind. }
  rewrite (VisitStack_rewrite outer w0 Ho).
  unfold rewriteStack at 1, rewriteMetadata at 1, rewriteServices at 1, leafOf.
  cbn [pre post outer NewInOrderVisitor recordOf inOrderVisitor_Visitor
       VisitStack VisitMetadata VisitTarget VisitParameter VisitDependency
       VisitService fst snd].
  rewrite (VisitStack_rewrite vi w0 Hvi). fold s.
  rewrite (VisitMetadata_rewrite vi w0 Hvi). fold meta.
  f_equal; [f_equal|..]; try (apply mapEntries_ext; intros k x _);
    try (unfold rewriteServices; f_equal; apply mapEntries_ext; intros k x _);
    first [ by rewrite (VisitTarget_leafOf vi w0 Hvi)
          | by rewrite (VisitParameter_leafOf vi w0 Hvi)
          | by rewrite (VisitDependency_leafOf vi w0 Hvi)
          | by rewrite (VisitService_leafOf vi w0 Hvi) ].
Qed.
End rewriting_facts.

(* ===================================================================== *)
(** * Observers that only watch: the events and the observer state *)
(* ===================================================================== *)

(** A loop whose visit hands back the record it was given: each visit is
    handed the entry of [m], and if the state a visit leaves is the state
    obtained by going through its events with [step], the same holds of the
    loop. *)
Lemma forEachName_replay {World V} `{!Inhabited V} (c : string → Call)
    (visit : string → V → M World V) (step : World → Event → World)
    names (m : gmap string V) (w : World) :
  (∀ name x w', value (visit name x w') = x) →
  (∀ name w', foldl step w' (events (visit name (m !!! name) w'))
              = world (visit name (m !!! name) w')) →
  (∀ w' e, step w' (WriteBack e) = w') →
  (∀ k, k ∈ names → k ∈ dom m) →
  foldl step w (events (forEachName c visit names m w))
  = world (forEachName c visit names m w).
Proof.
  intros Hid Hvisit Hstore. revert w.
  induction names as [|name names IH]; intros w Hk; [done|].
  rewrite forEachName_cons_events, forEachName_cons_world, Hid.
  assert (<[name := m !!! name]> m = m) as ->.
  { assert (is_Some (m !! name)) as [x Hx] by (apply elem_of_dom, Hk; left).
    apply insert_id. by rewrite (lookup_total_correct _ _ _ Hx). }
  rewrite foldl_app, Hvisit. cbn [foldl]. rewrite Hstore.
  apply IH. intros k Hin. apply Hk. by right.
Qed.

Section watching.
Context {Document Sink World : Type}.
Context {Target Param Dependency Service : Type}.
Context {MetadataRest StackRest ServicesRest : Type}.
Context `{!Inhabited Target, !Inhabited Param,
          !Inhabited Dependency, !Inhabited Service}.

Local Abbreviation TheVisitor :=
  (@Visitor Document Sink World Target Param Dependency
     Service MetadataRest StackRest ServicesRest).
Local Abbreviation TheInOrderVisitor :=
  (@inOrderVisitor Document Sink World Target Param
     Dependency Service MetadataRest StackRest ServicesRest).
Local Abbreviation TheStack :=
  (@Stack Target Param Dependency Service MetadataRest StackRest ServicesRest).

Variable ord : MapOrder.
Variable v : TheInOrderVisitor.
Variable doc : Document.
Variable stack : TheStack.
Hypothesis Hv : Both NoMutation v.

Local Abbreviation eff := (effect v doc stack).

Lemma ifPresent_replay {R} h c
    (method : TheVisitor → R → World → R * World) (r : R) (w : World) :
  (∀ o, observerOf v h = Some o → eff w (Invoke h c) = (method o r w).2) →
  foldl eff w (events (ifPresent h (observerOf v h) c method r w))
  = world (ifPresent h (observerOf v h) c method r w).
Proof. destruct (observerOf v h) as [o|]; cbn [ifPresent]; cbn; auto. Qed.

Lemma effect_call h c o w :
  observerOf v h = Some o →
  eff w (Invoke h c) =
  match c with
  | CallStack => (VisitStack o doc stack w).2
  | CallMetadata kind => (VisitMetadata o doc kind (StackMetadata stack) w).2
  | CallTarget name =>
      (VisitTarget o doc name (Targets (StackMetadata stack) !!! name) w).2
  | CallParameter name =>
      (VisitParameter o doc name (Parameters stack !!! name) w).2
  | CallDependency name =>
      (VisitDependency o doc name (Dependencies stack !!! name) w).2
  | CallServices => (VisitServices o doc (StackServices stack) w).2
  | CallService name true =>
      (VisitService o doc name true (Public (StackServices stack) !!! name) w).2
  | CallService name false =>
      (VisitService o doc name false (Private (StackServices stack) !!! name) w).2
  end.
Proof. intros Ho. unfold effect. by rewrite Ho. Qed.

Lemma VisitTarget_replay name w :
  let x := Targets (StackMetadata stack) !!! name in
  foldl eff w (events (inOrderVisitor_VisitTarget v doc name x w))
  = world (inOrderVisitor_VisitTarget v doc name x w).
Proof.
  intros x. unfold inOrderVisitor_VisitTarget, bind. cbn [world events value].
  rewrite foldl_app.
  rewrite (ifPresent_unchanged Pre (pre v))
    by (intros o Ho; apply same_Target, (proj1 Hv _ Ho)).
  rewrite (ifPresent_replay Pre) by (intros o Ho; by rewrite (effect_call _ _ o)).
  apply (ifPresent_replay Post). intros o Ho. by rewrite (effect_call _ _ o).
Qed.

Lemma VisitParameter_replay name w :
  let x := Parameters stack !!! name in
  foldl eff w (events (inOrderVisitor_VisitParameter v doc name x w))
  = world (inOrderVisitor_VisitParameter v doc name x w).
Proof.
  intros x. unfold inOrderVisitor_VisitParameter, bind. cbn [world events value].
  rewrite foldl_app.
  rewrite (ifPresent_unchanged Pre (pre v))
    by (intros o Ho; apply same_Parameter, (proj1 Hv _ Ho)).
  rewrite (ifPresent_replay Pre) by (intros o Ho; by rewrite (effect_call _ _ o)).
  apply (ifPresent_replay Post). intros o Ho. by rewrite (effect_call _ _ o).
Qed.

Lemma VisitDependency_replay name w :
  let x := Dependencies stack !!! name in
  foldl eff w (events (inOrderVisitor_VisitDependency v doc name x w))
  = world (inOrderVisitor_VisitDependency v doc name x w).
Proof.
  intros x. unfold inOrderVisitor_VisitDependency, bind. cbn [world events value].
  rewrite foldl_app.
  rewrite (ifPresent_unchanged Pre (pre v))
    by (intros o Ho; apply same_Dependency, (proj1 Hv _ Ho)).
  rewrite (ifPresent_replay Pre) by (intros o Ho; by rewrite (effect_call _ _ o)).
  apply (ifPresent_replay Post). intros o Ho. by rewrite (effect_call _ _ o).
Qed.

Lemma VisitService_replay_public name w :
  let x := Public (StackServices stack) !!! name in
  foldl eff w (events (inOrderVisitor_VisitService v doc name true x w))
  = world (inOrderVisitor_VisitService v doc name true x w).
Proof.
  intros x. unfold inOrderVisitor_VisitService, bind. cbn [world events value].
  rewrite foldl_app.
  rewrite (ifPresent_unchanged Pre (pre v))
    by (intros o Ho; apply same_Service, (proj1 Hv _ Ho)).
  rewrite (ifPresent_replay Pre) by (intros o Ho; by rewrite (effect_call _ _ o)).
  apply (ifPresent_replay Post). intros o Ho. by rewrite (effect_call _ _ o).
Qed.

Lemma VisitService_replay_private name w :
  let x := Private (StackServices stack) !!! name in
  foldl eff w (events (inOrderVisitor_VisitService v doc name false x w))
  = world (inOrderVisitor_VisitService v doc name false x w).
Proof.
  intros x. unfold inOrderVisitor_VisitService, bind. cbn [world events value].
  rewrite foldl_app.
  rewrite (ifPresent_unchanged Pre (pre v))
    by (intros o Ho; apply same_Service, (proj1 Hv _ Ho)).
  rewrite (ifPresent_replay Pre) by (intros o Ho; by rewrite (effect_call _ _ o)).
  apply (ifPresent_replay Post). intros o Ho. by rewrite (effect_call _ _ o).
Qed.
Lemma VisitMetadata_replay kind w :
  foldl eff w
    (events (inOrderVisitor_VisitMetadata ord v doc kind (StackMetadata stack) w))
  = world (inOrderVisitor_VisitMetadata ord v doc kind (StackMetadata stack) w).
Proof.
  unfold inOrderVisitor_VisitMetadata, bind. cbn [world events value].
  rewrite !foldl_app.
  rewrite (ifPresent_unchanged Pre (pre v))
    by (intros o Ho; apply same_Metadata, (proj1 Hv _ Ho)).
  rewrite (ifPresent_replay Pre) by (intros o Ho; by rewrite (effect_call _ _ o)).
  rewrite visitTargets_eq.
  rewrite (forEachName_unchanged CallTarget)
    by (first [apply @keys_in_dom|intros; by apply VisitTarget_unchanged]).
  rewrite (forEachName_replay CallTarget)
    by (first [apply @keys_in_dom|done|intros; by apply VisitTarget_unchanged
              |intros; apply VisitTarget_replay]).
  replace {| Targets := Targets (StackMetadata stack);
             metadataRest := metadataRest (StackMetadata stack) |}
    with (StackMetadata stack) by by destruct (StackMetadata stack).
  apply (ifPresent_replay Post). intros o Ho. by rewrite (effect_call _ _ o).
Qed.

Lemma VisitServices_replay w :
  foldl eff w
    (events (inOrderVisitor_VisitServices ord v doc (StackServices stack) w))
  = world (inOrderVisitor_VisitServices ord v doc (StackServices stack) w).
Proof.
  unfold inOrderVisitor_VisitServices, bind. cbn [world events value ret].
  rewrite app_nil_r, foldl_app.
  rewrite visitPublic_eq, visitPrivate_eq.
  rewrite (forEachName_replay (λ name, CallService name true))
    by (first [apply @keys_in_dom|done|intros; by apply VisitService_unchanged
              |intros; apply VisitService_replay_public]).
  apply (forEachName_replay (λ name, CallService name false));
    first [apply @keys_in_dom|done|intros; by apply VisitService_unchanged
          |intros; apply VisitService_replay_private].
Qed.

Lemma VisitStack_replay w :
  foldl eff w (events (inOrderVisitor_VisitStack ord v doc stack w))
  = world (inOrderVisitor_VisitStack ord v doc stack w).
Proof.
  unfold inOrderVisitor_VisitStack, bind. cbn [world events value].
  rewrite !foldl_app.
  rewrite (ifPresent_unchanged Pre (pre v))
    by (intros o Ho; apply same_Stack, (proj1 Hv _ Ho)).
  rewrite (ifPresent_replay Pre) by (intros o Ho; by rewrite (effect_call _ _ o)).
  rewrite VisitMetadata_replay, (VisitMetadata_unchanged v Hv).
  rewrite (visitParameters_eq ord), (visitDependencies_eq ord).
  rewrite (forEachName_unchanged CallParameter)
    by (first [apply @keys_in_dom|intros; by apply VisitParameter_unchanged]).
  rewrite (forEachName_replay CallParameter)
    by (first [apply @keys_in_dom|done|intros; by apply VisitParameter_unchanged
              |intros; apply VisitParameter_replay]).
  rewrite (forEachName_unchanged CallDependency)
    by (first [apply @keys_in_dom|intros; by apply VisitDependency_unchanged]).
  rewrite (forEachName_replay CallDependency)
    by (first [apply @keys_in_dom|done|intros; by apply VisitDependency_unchanged
              |intros; apply VisitDependency_replay]).
  rewrite VisitServices_replay, (VisitServices_unchanged v Hv).
  replace {| StackMetadata := StackMetadata stack;
             Parameters := Parameters stack;
             Dependencies := Dependencies stack;
             StackServices := StackServices stack;
             stackRest := stackRest stack |}
    with stack by by destruct stack.
  apply (ifPresent_replay Post). intros o Ho. by rewrite (effect_call _ _ o).
Qed.
End watching.

(** With observers that only watch, the state they are left in is the state
    obtained by going through the events of the traversal in their order and
    letting each call act on the record of the Stack it is about: the events
    are the calls that took place, in the order they took place. *)
Theorem observer_state_follows_the_events
    {Document Sink World Target Param Dependency Service
     MetadataRest StackRest ServicesRest : Type}
    `{!Inhabited Target, !Inhabited Param, !Inhabited Dependency,
      !Inhabited Service}
    (ord : MapOrder)
    (v : @inOrderVisitor Document Sink World Target Param Dependency Service
           MetadataRest StackRest ServicesRest)
    (doc : Document) (stack : Stack) (w : World) :
  Both NoMutation v →
  world (inOrderVisitor_VisitStack ord v doc stack w)
  = foldl (effect v doc stack) w
      (events (inOrderVisitor_VisitStack ord v doc stack w)).
Proof. intros Hv. symmetry. by apply VisitStack_replay. Qed.

(* ===================================================================== *)
(** * How many calls, how many stores *)
(* ===================================================================== *)


Lemma ascendingKeys_same_dom {V} (m m' : gmap string V) :
  dom m = dom m' → ascendingKeys m = ascendingKeys m'.
Proof. unfold ascendingKeys. by intros ->. Qed.






Section counting.
Context {Document Sink World : Type}.
Context {Target Param Dependency Service : Type}.
Context {MetadataRest StackRest ServicesRest : Type}.
Context `{!Inhabited Target, !Inhabited Param,
          !Inhabited Dependency, !Inhabited Service}.

Local Abbreviation TheVisitor :=
  (@Visitor Document Sink World Target Param Dependency
     Service MetadataRest StackRest ServicesRest).
Local Abbreviation TheInOrderVisitor :=
  (@inOrderVisitor Document Sink World Target Param
     Dependency Service MetadataRest StackRest ServicesRest).
Local Abbreviation TheStack :=
  (@Stack Target Param Dependency Service MetadataRest StackRest ServicesRest).

Implicit Types (ord : MapOrder) (v : TheInOrderVisitor) (doc : Document)
  (w : World) (stack : TheStack).

(** The key sets the loops of [VisitStack] run over are those of the Stack
    it was called with, when the observers add and remove no entry. *)
Lemma VisitStack_loop_keys v doc stack w :
  Both KeepsKeys v →
  let s := preStack v doc stack w in
  let meta := preMetadata v doc "Stack" (StackMetadata (value s)) (world s) in
  dom (Targets (value meta)) = dom (Targets (StackMetadata stack)) ∧
  dom (Parameters (value s)) = dom (Parameters stack) ∧
  dom (Dependencies (value s)) = dom (Dependencies stack) ∧
  dom (Public (StackServices (value s))) = dom (Public (StackServices stack)) ∧
  dom (Private (StackServices (value s))) = dom (Private (StackServices stack)).
Proof.
  intros Hv s meta. unfold meta, s, preStack. split_and!.
  - rewrite (preMetadata_dom v doc Hv).
    apply (ifPresent_keeps (λ x, dom (Targets (StackMetadata x)))).
    intros o Ho. apply keys_Targets, (proj1 Hv _ Ho).
  - apply (ifPresent_keeps (λ x, dom (Parameters x))).
    intros o Ho. apply keys_Parameters, (proj1 Hv _ Ho).
  - apply (ifPresent_keeps (λ x, dom (Dependencies x))).
    intros o Ho. apply keys_Dependencies, (proj1 Hv _ Ho).
  - apply (ifPresent_keeps (λ x, dom (Public (StackServices x)))).
    intros o Ho. apply keys_Public, (proj1 Hv _ Ho).
  - apply (ifPresent_keeps (λ x, dom (Private (StackServices x)))).
    intros o Ho. apply keys_Private, (proj1 Hv _ Ho).
Qed.

(** The sequence of calls and stores of [VisitStack] is a function of the
    key sets of the five mappings and of which observers are there: two
    Stacks with the same keys are walked in the same sequence, whatever
    their records, the state of the observers and the order of [range]. *)
Theorem call_sequence_depends_on_keys_only ord ord' v doc stack stack' w w' :
  Both KeepsKeys v →
  dom (Targets (StackMetadata stack)) = dom (Targets (StackMetadata stack')) →
  dom (Parameters stack) = dom (Parameters stack') →
  dom (Dependencies stack) = dom (Dependencies stack') →
  dom (Public (StackServices stack)) = dom (Public (StackServices stack')) →
  dom (Private (StackServices stack)) = dom (Private (StackServices stack')) →
  events (inOrderVisitor_VisitStack ord v doc stack w)
  = events (inOrderVisitor_VisitStack ord' v doc stack' w').
Proof.
  intros Hv HT HP HD HPu HPr.
  rewrite !VisitStack_events. cbn zeta.
  destruct (VisitStack_loop_keys v doc stack w Hv) as (E1 & E2 & E3 & E4 & E5).
  destruct (VisitStack_loop_keys v doc stack' w' Hv) as (F1 & F2 & F3 & F4 & F5).
  cbn zeta in *.
  rewrite (ascendingKeys_same_dom _ _ (eq_trans E1 (eq_trans HT (eq_sym F1)))).
  rewrite (ascendingKeys_same_dom _ _ (eq_trans E2 (eq_trans HP (eq_sym F2)))).
  rewrite (ascendingKeys_same_dom _ _ (eq_trans E3 (eq_trans HD (eq_sym F3)))).
  rewrite (ascendingKeys_same_dom _ _ (eq_trans E4 (eq_trans HPu (eq_sym F4)))).
  rewrite (ascendingKeys_same_dom _ _ (eq_trans E5 (eq_trans HPr (eq_sym F5)))).
  reflexivity.
Qed.



End counting.

(* ===================================================================== *)
(** * The further statements at the sample Stack *)
(* ===================================================================== *)

Lemma recorder_WorldBlind tag : WorldBlind (sample.recorder tag).
Proof. by constructor. Defined.

Lemma bumper_WorldBlind tag n : WorldBlind (sample.bumper tag n).
Proof. by constructor. Defined.

Lemma doubler_WorldBlind tag : WorldBlind (sample.doubler tag).
Proof. by constructor. Defined.

Lemma rewrites_at_sample_stack :
  let v := NewInOrderVisitor (Some (sample.bumper "pre " 1))
             (Some (sample.doubler "post ")) in
  let r := inOrderVisitor_VisitStack backwardOrder v tt sample.stack ["log"] in
  Both WorldBlind v ∧
  value r = rewriteStack v [] tt sample.stack ∧
  Parameters (rewriteStack v [] tt sample.stack)
  = {[ "a" := 42; "b" := 22; "c" := 62 ]}.
Proof.
  intros v r.
  assert (Both WorldBlind v) as Hv.
  { split; intros o [= <-].
    - apply bumper_WorldBlind.
    - apply doubler_WorldBlind. }
  split_and!; [exact Hv| |by vm_compute].
  exact (proj1 (VisitStack_rewrites_entry_by_entry backwardOrder v tt
                  sample.stack ["log"] [] Hv)).
Defined.

Lemma one_walk_for_two_at_sample_stack :
  let p := Some (sample.bumper "pre " 1) in
  let q := Some (sample.doubler "post ") in
  let r1 := inOrderVisitor_VisitStack forwardOrder (NewInOrderVisitor p None)
              tt sample.stack [] in
  let r2 := inOrderVisitor_VisitStack backwardOrder (NewInOrderVisitor None q)
              tt (value r1) (world r1) in
  Both WorldBlind (NewInOrderVisitor p q) ∧
  value (inOrderVisitor_VisitStack forwardOrder (NewInOrderVisitor p q)
           tt sample.stack [])
  = value r2 ∧
  Parameters (value r2) = {[ "a" := 42; "b" := 22; "c" := 62 ]}.
Proof.
  intros p q r1 r2.
  assert (Both WorldBlind (NewInOrderVisitor p q)) as Hv.
  { split; intros o [= <-].
    - apply bumper_WorldBlind.
    - apply doubler_WorldBlind. }
  split_and!; [exact Hv| |by vm_compute].
  exact (VisitStack_one_walk_for_two forwardOrder forwardOrder backwardOrder
           p q tt sample.stack [] Hv).
Defined.

Lemma nested_at_sample_stack :
  let vi := NewInOrderVisitor (Some (sample.bumper "in " 1)) None in
  let outer := NewInOrderVisitor
                 (Some (inOrderVisitor_Visitor backwardOrder vi)) None in
  let r := inOrderVisitor_VisitStack forwardOrder outer tt sample.stack [] in
  Both WorldBlind vi ∧
  Parameters (value r)
  = mapEntries (leafOf vi [] (λ o, VisitParameter o tt))
      (Parameters (rewriteStack vi [] tt sample.stack)) ∧
  Parameters (value r) = {[ "a" := 22; "b" := 12; "c" := 32 ]} ∧
  Targets (StackMetadata (value r)) = {[ "t1" := 5; "t2" := 4 ]}.
Proof.
  intros vi outer r.
  assert (Both WorldBlind vi) as Hv
    by (split; intros o [= <-]; apply bumper_WorldBlind).
  split_and!; [exact Hv| |by vm_compute|by vm_compute].
  exact (f_equal Parameters
           (nested_visitor_rewrites_again forwardOrder backwardOrder vi tt
              sample.stack [] [] Hv)).
Defined.

Lemma state_follows_events_at_sample_stack :
  let v := NewInOrderVisitor (Some (sample.recorder "pre "))
             (Some (sample.recorder "post ")) in
  let r := inOrderVisitor_VisitStack forwardOrder v tt sample.stack [] in
  Both NoMutation v ∧
  world r = foldl (effect v tt sample.stack) [] (events r) ∧
  length (world r) = 20.
Proof.
  intros v r.
  assert (Both NoMutation v) as Hv
    by (split; intros o [= <-]; apply recorder_NoMutation).
  split_and!; [exact Hv| |by vm_compute].
  exact (observer_state_follows_the_events forwardOrder v tt sample.stack [] Hv).
Defined.

Lemma same_keys_same_sequence_at_sample_stack :
  let v := NewInOrderVisitor (Some (sample.bumper "pre " 1))
             (Some (sample.recorder "post ")) in
  let stack' := value (inOrderVisitor_VisitStack forwardOrder v tt
                         sample.stack []) in
  Both KeepsKeys v ∧
  stack' ≠ sample.stack ∧
  events (inOrderVisitor_VisitStack forwardOrder v tt sample.stack [])
  = events (inOrderVisitor_VisitStack backwardOrder v tt stack' ["later"]).
Proof.
  intros v stack'.
  assert (Both KeepsKeys v) as Hv.
  { split; intros o [= <-]; by constructor. }
  split_and!; [exact Hv| |].
  - intros Heq. apply (f_equal (λ s, Parameters s !! "a")) in Heq.
    vm_compute in Heq. discriminate Heq.
  - apply (call_sequence_depends_on_keys_only forwardOrder backwardOrder v tt
             sample.stack stack' [] ["later"] Hv); by vm_compute.
Defined.


(* ===================================================================== *)
(** * An observer that adds an entry *)
(* ===================================================================== *)

Lemma keys_in_dom_inv {V} (m : gmap string V) (k : string) :
  k ∈ dom m → k ∈ ascendingKeys m.
Proof. by rewrite elem_of_ascendingKeys, elem_of_dom. Qed.

(** C10 as first worded, with the proviso that an observer mutates only the
    record it is passed: the pre observer below changes nothing but the Stack
    its [VisitStack] is handed, to which it adds the parameter zz.  The loop
    over the parameters then runs over a, b, c and zz and stores at zz, a key
    the mapping did not have before the traversal, and the Stack comes back
    with four parameter keys instead of three.  So key sets are not kept for
    every such observer. *)
Lemma C10_observer_adds_a_key :
  let v := NewInOrderVisitor (Some (sample.adder "pre ")) None in
  let r := inOrderVisitor_VisitStack forwardOrder v tt sample.stack [] in
  ascendingKeys (Parameters sample.stack) = ["a"; "b"; "c"] ∧
  ascendingKeys (Parameters (value r)) = ["a"; "b"; "c"; "zz"] ∧
  dom (Parameters (value r)) ≠ dom (Parameters sample.stack) ∧
  WriteBack (CallParameter "zz") ∈ events r ∧
  ¬ ExistingKey sample.stack (CallParameter "zz") ∧
  ¬ (∀ (o : sample.SVisitor) (stack : sample.SStack) (w : list string),
       dom (Parameters
              (value (inOrderVisitor_VisitStack forwardOrder
                        (NewInOrderVisitor (Some o) None) tt stack w)))
       = dom (Parameters stack)).
Proof.
  intros v r.
  assert (ascendingKeys (Parameters sample.stack) = ["a"; "b"; "c"]) as H0
    by by vm_compute.
  assert (ascendingKeys (Parameters (value r)) = ["a"; "b"; "c"; "zz"]) as H1
    by by vm_compute.
  assert (dom (Parameters (value r)) ≠ dom (Parameters sample.stack)) as Hne.
  { intros Hd. apply ascendingKeys_same_dom in Hd.
    rewrite H0, H1 in Hd. discriminate Hd. }
  split_and!; [exact H0|exact H1|exact Hne| | |].
  - apply (bool_decide_unpack _). by vm_compute.
  - cbn [ExistingKey]. intros Hin. apply keys_in_dom_inv in Hin.
    rewrite H0 in Hin. apply (bool_decide_pack _) in Hin.
    vm_compute in Hin. exact Hin.
  - intros Hall. apply Hne. apply (Hall (sample.adder "pre ") sample.stack []).
Qed.
